(** * CC-Lab: the per-process caches of the event-registration service

    A shallow embedding of [CC Lab-2/database.py] and [CC Lab-2/main.py]:
    the storage handle provider ([get_db]), the catalog cache
    ([_get_events_cached]), the per-user registrations cache
    ([_get_my_events_cached], [_invalidate_my_events_cache]) and the request
    handlers that use them.

    Modelling decisions.
    - Python code is written in a state-and-exception monad [M] over a
      [World]: the module globals of both files, the contents of [fest.db],
      the monotonic clock, and a chronological [trace] of the effects
      performed (every sqlite call and every mutation of a cache).
    - [time.monotonic()] readings and the two TTL constants are Python
      floats.  A finite float is a rational, and they are represented as
      rationals ([Q]); the float subtraction of the freshness tests is the
      rational subtraction followed by the rounding to the nearest float
      ([float_sub]); the comparisons are exact, as they are on floats.  A
      TTL that is a NaN or an infinity is not represented.
    - What the environment does to a sqlite call (how long it takes, whether
      it raises) is read from a script carried by the world ([env]), one
      [outcome] per call; an exhausted script means "immediately, without
      error".
    - The handlers run one at a time: [with lock:] blocks are plain
      sequencing.
    - The schema created by [startup] is assumed to be in place.
    - The order of the rows of a SELECT is the order of insertion; the
      properties below speak of membership and of equality with the query
      on the same store, not of a particular order.

    The file has three parts: the embedding of the two source files, the
    vocabulary in which the properties are stated (with the sample stores
    of the worked examples), and the lemmas and theorems. *)

From Stdlib Require Import ZArith QArith Lqa.
From stdpp Require Import gmap strings list.

Local Open Scope Z_scope.
Local Open Scope string_scope.
Local Open Scope list_scope.

(** ** Values, rows, exceptions *)

Inductive value : Type :=
| VInt (n : Z)
| VText (s : string).

(** [tuple(r)] for a [sqlite3.Row] [r]. *)
Definition tuple : Type := list value.

Inductive exn : Type :=
| ZeroDivisionError
| OverflowError
| IntegrityError
| OperationalError
| OtherError (msg : string).

Inductive result (A : Type) : Type :=
| Ok (a : A)
| Raise (e : exn).
Arguments Ok {A} a.
Arguments Raise {A} e.

(** ** The store: the three tables of [fest.db] *)

Record Tables : Type := mkTables {
  users : list (string * string);            (* username PRIMARY KEY, password *)
  events : list (Z * string * Z);            (* id PRIMARY KEY, name, fee *)
  registrations : list (string * Z)          (* username, event_id *)
}.

Inductive write : Type :=
| WUser (username password : string)
| WRegistration (username : string) (event_id : Z).

Definition apply_write (t : Tables) (wr : write) : Tables :=
  match wr with
  | WUser u p => mkTables (users t ++ [(u, p)]) (events t) (registrations t)
  | WRegistration u e => mkTables (users t) (events t) (registrations t ++ [(u, e)])
  end.

Definition conn : Type := nat.

Inductive stmt : Type :=
| PragmaJournalModeWAL
| PragmaSynchronousNormal
| PragmaTempStoreMemory
| PragmaBusyTimeout
| SelectEvents
| SelectMyEvents (username : string)
| SelectUser (username password : string)
| InsertUser (username password : string)
| InsertRegistration (username : string) (event_id : Z)
| Ddl (sql : string).

(** The store-level tuning options of [_init_db_settings]. *)
Definition is_tuning (s : stmt) : bool :=
  match s with
  | PragmaJournalModeWAL | PragmaSynchronousNormal | PragmaTempStoreMemory => true
  | _ => false
  end.

Inductive effect : Type :=
| EvConnect (c : conn) (ok : bool)
| EvExecute (c : conn) (s : stmt) (ok : bool)
| EvCommit (c : conn) (ok : bool)
| EvClose (c : conn)
| EvCatalogStore (ts : Q) (data : list tuple)
| EvMyEventsStore (username : string) (ts : Q) (data : list tuple)
| EvMyEventsPop (username : string).

(** What the environment does to one sqlite call. *)
Record outcome : Type := mkOutcome {
  delay : Q;
  fault : option exn
}.

Definition no_outcome : outcome := mkOutcome 0 None.

(** ** The world *)

Record World : Type := mkWorld {
  (* fest.db *)
  db : Tables;
  pending : list (conn * write);
  next_conn : conn;
  open_conns : list conn;
  (* database.py *)
  _db_initialized : bool;
  (* main.py *)
  _events_cache_ts : Q;
  _events_cache_data : option (list tuple);
  _my_events_cache : gmap string (Q * list tuple);
  (* environment *)
  clock : Q;
  env : list outcome;
  trace : list effect
}.

Definition set_db (f : Tables -> Tables) (w : World) : World :=
  mkWorld (f (db w)) (pending w) (next_conn w) (open_conns w) (_db_initialized w)
          (_events_cache_ts w) (_events_cache_data w) (_my_events_cache w)
          (clock w) (env w) (trace w).

Definition set_pending (f : list (conn * write) -> list (conn * write)) (w : World) : World :=
  mkWorld (db w) (f (pending w)) (next_conn w) (open_conns w) (_db_initialized w)
          (_events_cache_ts w) (_events_cache_data w) (_my_events_cache w)
          (clock w) (env w) (trace w).

Definition set_conns (n : conn) (o : list conn) (w : World) : World :=
  mkWorld (db w) (pending w) n o (_db_initialized w)
          (_events_cache_ts w) (_events_cache_data w) (_my_events_cache w)
          (clock w) (env w) (trace w).

Definition set_db_initialized (b : bool) (w : World) : World :=
  mkWorld (db w) (pending w) (next_conn w) (open_conns w) b
          (_events_cache_ts w) (_events_cache_data w) (_my_events_cache w)
          (clock w) (env w) (trace w).

Definition set_events_cache (ts : Q) (data : option (list tuple)) (w : World) : World :=
  mkWorld (db w) (pending w) (next_conn w) (open_conns w) (_db_initialized w)
          ts data (_my_events_cache w)
          (clock w) (env w) (trace w).

Definition set_my_events_cache (m : gmap string (Q * list tuple)) (w : World) : World :=
  mkWorld (db w) (pending w) (next_conn w) (open_conns w) (_db_initialized w)
          (_events_cache_ts w) (_events_cache_data w) m
          (clock w) (env w) (trace w).

Definition set_env (t : Q) (sc : list outcome) (w : World) : World :=
  mkWorld (db w) (pending w) (next_conn w) (open_conns w) (_db_initialized w)
          (_events_cache_ts w) (_events_cache_data w) (_my_events_cache w)
          t sc (trace w).

Definition log (e : effect) (w : World) : World :=
  mkWorld (db w) (pending w) (next_conn w) (open_conns w) (_db_initialized w)
          (_events_cache_ts w) (_events_cache_data w) (_my_events_cache w)
          (clock w) (env w) (trace w ++ [e]).

(** ** The monad of Python code: state plus exceptions *)

Definition M (A : Type) : Type := World -> result A * World.

Definition ret {A} (a : A) : M A := fun w => (Ok a, w).

Definition bind {A B} (m : M A) (k : A -> M B) : M B :=
  fun w => match m w with
           | (Ok a, w') => k a w'
           | (Raise e, w') => (Raise e, w')
           end.

Definition raise {A} (e : exn) : M A := fun w => (Raise e, w).

Definition modify (f : World -> World) : M unit := fun w => (Ok tt, f w).

Definition gets {A} (f : World -> A) : M A := fun w => (Ok (f w), w).

(** [try: body finally: fin]; [fin] itself does not raise in this program
    (it is always [db.close()]). *)
Definition try_finally {A} (body : M A) (fin : M unit) : M A :=
  fun w => match body w with
           | (r, w') =>
               match fin w' with
               | (Ok _, w'') => (r, w'')
               | (Raise e, w'') => (Raise e, w'')
               end
           end.

(** [try: body except: handler] with a bare [except], which catches every
    exception. *)
Definition try_except {A} (body : M A) (handler : M A) : M A :=
  fun w => match body w with
           | (Ok a, w') => (Ok a, w')
           | (Raise _, w') => handler w'
           end.

Declare Scope py_scope.
Delimit Scope py_scope with py.
Notation "x <- m ;; k" := (bind m (fun x => k))
  (at level 100, m at next level, right associativity) : py_scope.
Notation "m ;;; k" := (bind m (fun _ => k))
  (at level 100, right associativity) : py_scope.
Local Open Scope py_scope.

(** ** sqlite3 *)

Definition next_outcome (w : World) : outcome :=
  match env w with
  | [] => no_outcome
  | o :: _ => o
  end.

(** The environment's part of a sqlite call: time passes, the script
    advances. *)
Definition elapse (w : World) : World :=
  set_env (clock w + delay (next_outcome w))%Q (tl (env w)) w.

Definition writes_of (c : conn) (p : list (conn * write)) : list write :=
  map snd (List.filter (fun cw => Nat.eqb (fst cw) c) p).

(** What connection [c] sees: the committed tables and its own uncommitted
    writes. *)
Definition view (c : conn) (w : World) : Tables :=
  fold_left apply_write (writes_of c (pending w)) (db w).

Definition event_row (ev : Z * string * Z) : tuple :=
  match ev with (id, name, fee) => [VInt id; VText name; VInt fee] end.

(** SELECT events.name, events.fee FROM events JOIN registrations
    ON events.id = registrations.event_id WHERE registrations.username=? *)
Definition my_events_rows (t : Tables) (username : string) : list tuple :=
  flat_map
    (fun r : string * Z =>
       if String.eqb (fst r) username
       then flat_map
              (fun ev : Z * string * Z =>
                 match ev with
                 | (id, name, fee) =>
                     if Z.eqb id (snd r) then [[VText name; VInt fee]] else []
                 end)
              (events t)
       else [])
    (registrations t).

Definition user_row (up : string * string) : tuple :=
  [VText (fst up); VText (snd up)].

Definition in_int64 (n : Z) : bool :=
  Z.leb (- 2 ^ 63) n && Z.ltb n (2 ^ 63).

(** The effect of a statement that the environment lets through. *)
Definition run_stmt (c : conn) (s : stmt) (w : World) : exn + (list tuple * World) :=
  match s with
  | PragmaJournalModeWAL => inr ([[VText "wal"]], w)
  | PragmaSynchronousNormal => inr ([], w)
  | PragmaTempStoreMemory => inr ([], w)
  | PragmaBusyTimeout => inr ([[VInt 3000]], w)
  | SelectEvents => inr (map event_row (events (view c w)), w)
  | SelectMyEvents u => inr (my_events_rows (view c w) u, w)
  | SelectUser u p =>
      inr (map user_row
             (List.filter (fun up => String.eqb (fst up) u && String.eqb (snd up) p)
                     (users (view c w))), w)
  | InsertUser u p =>
      if existsb (fun up => String.eqb (fst up) u) (users (view c w))
      then inl IntegrityError
      else inr ([], set_pending (fun q => q ++ [(c, WUser u p)]) w)
  | InsertRegistration u e =>
      if in_int64 e
      then inr ([], set_pending (fun q => q ++ [(c, WRegistration u e)]) w)
      else inl OverflowError
  | Ddl _ => inr ([], w)          (* CREATE ... IF NOT EXISTS on the existing schema *)
  end.

(** [sqlite3.connect("fest.db", timeout=30)] *)
Definition connect : M conn :=
  fun w =>
    let w1 := elapse w in
    let c := next_conn w1 in
    match fault (next_outcome w) with
    | Some x => (Raise x, log (EvConnect c false) w1)
    | None =>
        (Ok c, log (EvConnect c true)
                   (set_conns (S c) (c :: open_conns w1) w1))
    end.

(** [conn.execute(sql, params).fetchall()] *)
Definition execute (c : conn) (s : stmt) : M (list tuple) :=
  fun w =>
    let w1 := elapse w in
    match fault (next_outcome w) with
    | Some x => (Raise x, log (EvExecute c s false) w1)
    | None =>
        match run_stmt c s w1 with
        | inl x => (Raise x, log (EvExecute c s false) w1)
        | inr (rows, w2) => (Ok rows, log (EvExecute c s true) w2)
        end
    end.

(** [conn.commit()] *)
Definition commit (c : conn) : M unit :=
  fun w =>
    let w1 := elapse w in
    match fault (next_outcome w) with
    | Some x => (Raise x, log (EvCommit c false) w1)
    | None =>
        (Ok tt,
         log (EvCommit c true)
             (set_pending (List.filter (fun cw => negb (Nat.eqb (fst cw) c)))
                          (set_db (fun _ => view c w1) w1)))
    end.

(** [conn.close()]: uncommitted writes are rolled back. *)
Definition close (c : conn) : M unit :=
  fun w =>
    (Ok tt,
     log (EvClose c)
         (set_conns (next_conn w) (List.filter (fun c' => negb (Nat.eqb c' c)) (open_conns w))
                    (set_pending (List.filter (fun cw => negb (Nat.eqb (fst cw) c))) w))).

(** [time.monotonic()] *)
Definition monotonic : M Q := gets clock.

(** ** database.py *)

Definition _init_db_settings (c : conn) : M unit :=
  execute c PragmaJournalModeWAL ;;;
  execute c PragmaSynchronousNormal ;;;
  execute c PragmaTempStoreMemory ;;;
  ret tt.

Definition get_db : M conn :=
  c <- connect ;;
  initialized <- gets _db_initialized ;;
  (if negb initialized then
     (* with _db_init_lock: *)
     initialized' <- gets _db_initialized ;;
     if negb initialized' then
       _init_db_settings c ;;;
       modify (set_db_initialized true)
     else ret tt
   else ret tt) ;;;
  execute c PragmaBusyTimeout ;;;
  ret c.

(** ** main.py *)

Inductive response : Type :=
| HTMLResponse (body : string)
| RedirectResponse (url : string) (status_code : Z)
| TemplateResponse (name : string) (rows : list tuple) (user : string).

Definition Qlt_bool (a b : Q) : bool := negb (Qle_bool b a).

(** *** Python floats

    A finite [float] is an IEEE 754 binary64 number, which is a rational;
    the arithmetic on floats differs from that on rationals by the rounding
    of each result.  [float_round x] is the binary64 number nearest to [x],
    ties going to the even significand, with gradual underflow; a result
    beyond the largest finite float is represented by 2^1024, which stands
    for the infinity (it compares with every finite float as the infinity
    does). *)
Definition round_half_even (num den : Z) : Z :=
  let q := num / den in
  match (2 * (num mod den) ?= den)%Z with
  | Lt => q
  | Gt => q + 1
  | Eq => if Z.even q then q else q + 1
  end.

Definition float_round (x : Q) : Q :=
  let n := Qnum x in
  let d := Zpos (Qden x) in
  if (n =? 0)%Z then 0%Q else
  let a := Z.abs n in
  let scaled_num (e : Z) := if (0 <=? e)%Z then a else a * 2 ^ (- e) in
  let scaled_den (e : Z) := if (0 <=? e)%Z then d * 2 ^ e else d in
  let e1 := Z.log2 a - Z.log2 d - 52 in
  let e2 := if (scaled_num e1 <? 2 ^ 52 * scaled_den e1)%Z then e1 - 1 else e1 in
  let e := Z.max e2 (-1074) in
  let m := round_half_even (scaled_num e) (scaled_den e) in
  let mag :=
    if (0 <=? e)%Z then inject_Z (m * 2 ^ e) else Qmake m (Z.to_pos (2 ^ (- e))) in
  let mag := if Qle_bool (inject_Z (2 ^ 1024)) mag then inject_Z (2 ^ 1024) else mag in
  Qred (if (n <? 0)%Z then (- mag)%Q else mag).

(** [a - b] on floats. *)
Definition float_sub (a b : Q) : Q := float_round (a - b).

Section Main.

(** The two module-level constants, read once from the process
    environment when [main.py] is imported. *)
Variable _EVENTS_CACHE_TTL_SECONDS : Q.
Variable _MY_EVENTS_CACHE_TTL_SECONDS : Q.

Definition store_events_cache (ts : Q) (data : list tuple) : M unit :=
  modify (fun w => log (EvCatalogStore ts data) (set_events_cache ts (Some data) w)).

Definition _get_events_cached (db : conn) : M (list tuple) :=
  if Qle_bool _EVENTS_CACHE_TTL_SECONDS 0 then
    rows <- execute db SelectEvents ;;
    ret rows
  else
    now <- monotonic ;;
    (* with _events_cache_lock: *)
    hit <- gets (fun w =>
                   match _events_cache_data w with
                   | Some data =>
                       if Qlt_bool (float_sub now (_events_cache_ts w))
                                   _EVENTS_CACHE_TTL_SECONDS
                       then Some data else None
                   | None => None
                   end) ;;
    match hit with
    | Some data => ret data
    | None =>
        rows <- execute db SelectEvents ;;
        let data := rows in
        (* with _events_cache_lock: *)
        store_events_cache now data ;;;
        ret data
    end.

Definition store_my_events_cache (username : string) (ts : Q) (data : list tuple) : M unit :=
  modify (fun w => log (EvMyEventsStore username ts data)
                       (set_my_events_cache (<[username := (ts, data)]> (_my_events_cache w)) w)).

Definition _get_my_events_cached (db : conn) (username : string) : M (list tuple) :=
  if Qle_bool _MY_EVENTS_CACHE_TTL_SECONDS 0 then
    rows <- execute db (SelectMyEvents username) ;;
    ret rows
  else
    now <- monotonic ;;
    (* with _my_events_cache_lock: *)
    hit <- gets (fun w =>
                   match _my_events_cache w !! username with
                   | Some (ts, data) =>
                       if Qlt_bool (float_sub now ts) _MY_EVENTS_CACHE_TTL_SECONDS
                       then Some data else None
                   | None => None
                   end) ;;
    match hit with
    | Some data => ret data
    | None =>
        rows <- execute db (SelectMyEvents username) ;;
        let data := rows in
        (* with _my_events_cache_lock: *)
        store_my_events_cache username now data ;;;
        ret data
    end.

(** [_my_events_cache.pop(username, None)] *)
Definition _invalidate_my_events_cache (username : string) : M unit :=
  modify (fun w => log (EvMyEventsPop username)
                       (set_my_events_cache (delete username (_my_events_cache w)) w)).

Definition startup : M unit :=
  db <- get_db ;;
  try_finally
    (execute db (Ddl "CREATE TABLE IF NOT EXISTS users") ;;;
     execute db (Ddl "CREATE TABLE IF NOT EXISTS events") ;;;
     execute db (Ddl "CREATE TABLE IF NOT EXISTS registrations") ;;;
     execute db (Ddl "CREATE INDEX IF NOT EXISTS idx_registrations_username") ;;;
     execute db (Ddl "CREATE INDEX IF NOT EXISTS idx_registrations_event_id") ;;;
     commit db)
    (close db).

Definition username_exists_message : string :=
  "Username already exists. Try a different one.".

(** POST /register.  The [return] inside the bare [except] leaves the
    function after the [finally] block has run; the inner block yields
    [Some response] for it and [None] for falling through. *)
Definition register (username password : string) : M response :=
  db <- get_db ;;
  early <- try_finally
             (try_except
                (execute db (InsertUser username password) ;;;
                 commit db ;;;
                 ret None)
                (ret (Some (HTMLResponse username_exists_message))))
             (close db) ;;
  match early with
  | Some r => ret r
  | None => ret (RedirectResponse "/login" 302)
  end.

(** POST /login *)
Definition login (username password : string) : M response :=
  db <- get_db ;;
  user <- try_finally (execute db (SelectUser username password)) (close db) ;;
  match user with
  | [] => ret (TemplateResponse "login.html" [] "")
  | _ :: _ => ret (RedirectResponse ("/events?user=" ++ username) 302)
  end.

(** GET /events (the optional busy loop computes nothing that is used). *)
Definition events_page (user : string) : M response :=
  db <- get_db ;;
  rows <- try_finally (_get_events_cached db) (close db) ;;
  ret (TemplateResponse "events.html" rows user).

(** GET /register_event/{event_id} *)
Definition register_event (event_id : Z) (user : string) : M response :=
  (if Z.eqb event_id 404 then raise ZeroDivisionError else ret tt) ;;;
  db <- get_db ;;
  try_finally
    (execute db (InsertRegistration user event_id) ;;;
     commit db)
    (close db) ;;;
  (* New registration changes the /my-events result for this user. *)
  _invalidate_my_events_cache user ;;;
  ret (RedirectResponse ("/my-events?user=" ++ user) 302).

(** GET /my-events *)
Definition my_events (user : string) : M response :=
  db <- get_db ;;
  rows <- try_finally (_get_my_events_cached db user) (close db) ;;
  ret (TemplateResponse "my_events.html" rows user).

End Main.

(** ** Operation sequences *)

Inductive op : Type :=
(* requests *)
| ReqStartup
| ReqRegister (username password : string)
| ReqLogin (username password : string)
| ReqEvents (user : string)
| ReqRegisterEvent (event_id : Z) (user : string)
| ReqMyEvents (user : string)
(* the functions of the caching layer, called directly *)
| CallGetDb
| CallClose (c : conn)
| CallGetEventsCached (c : conn)
| CallGetMyEventsCached (c : conn) (username : string)
| CallInvalidate (username : string)
(* the environment: time passes, the script of the coming sqlite calls is
   chosen, the store is changed by another process *)
| EnvSleep (d : Q)
| EnvScript (sc : list outcome)
| EnvStore (t : Tables).

Definition exec {A} (m : M A) (w : World) : World := snd (m w).

Definition run_op (ttl_events ttl_my : Q) (o : op) (w : World) : World :=
  match o with
  | ReqStartup => exec startup w
  | ReqRegister u p => exec (register u p) w
  | ReqLogin u p => exec (login u p) w
  | ReqEvents u => exec (events_page ttl_events u) w
  | ReqRegisterEvent e u => exec (register_event e u) w
  | ReqMyEvents u => exec (my_events ttl_my u) w
  | CallGetDb => exec get_db w
  | CallClose c => exec (close c) w
  | CallGetEventsCached c => exec (_get_events_cached ttl_events c) w
  | CallGetMyEventsCached c u => exec (_get_my_events_cached ttl_my c u) w
  | CallInvalidate u => exec (_invalidate_my_events_cache u) w
  | EnvSleep d => set_env (clock w + d)%Q (env w) w
  | EnvScript sc => set_env (clock w) sc w
  | EnvStore t => set_db (fun _ => t) w
  end.

Definition run_ops (ttl_events ttl_my : Q) (ops : list op) (w : World) : World :=
  fold_left (fun w o => run_op ttl_events ttl_my o w) ops w.

(** The state of a freshly started process over a given store. *)
Definition fresh (t : Tables) : World :=
  mkWorld t [] 0%nat [] false 0 None ∅ 0 [] [].

(** * Vocabulary of the properties *)

(** ** Relations between the world before and after a computation *)

Definition respects {A} (R : World -> World -> Prop) (m : M A) : Prop :=
  forall w, R w (snd (m w)).

(** The catalog slot and the per-user mapping are what they were. *)
Definition same_caches (w w' : World) : Prop :=
  _events_cache_ts w' = _events_cache_ts w /\
  _events_cache_data w' = _events_cache_data w /\
  _my_events_cache w' = _my_events_cache w.

(** A sqlite call leaves the module globals alone and logs exactly one
    effect. *)
Definition db_step (P : effect -> Prop) (w w' : World) : Prop :=
  _db_initialized w' = _db_initialized w /\
  _events_cache_ts w' = _events_cache_ts w /\
  _events_cache_data w' = _events_cache_data w /\
  _my_events_cache w' = _my_events_cache w /\
  exists e, trace w' = trace w ++ [e] /\ P e.

(** Everything logged in between satisfies [P]. *)
Definition logs_only (P : effect -> Prop) (w w' : World) : Prop :=
  exists tr, trace w' = trace w ++ tr /\ Forall P tr.

(** The effects of sqlite calls, as opposed to those of cache updates. *)
Definition is_sqlite_effect (e : effect) : Prop :=
  match e with
  | EvConnect _ _ | EvExecute _ _ _ | EvCommit _ _ | EvClose _ => True
  | EvCatalogStore _ _ | EvMyEventsStore _ _ _ | EvMyEventsPop _ => False
  end.

(** ** The environment *)

Definition succeeded (o : outcome) : bool :=
  match fault o with None => true | Some _ => false end.


(** ** The one-time tuning *)

Definition tuning_effect (e : effect) : bool :=
  match e with
  | EvExecute _ s _ => is_tuning s
  | _ => false
  end.

(** How many times a tuning pragma was run. *)
Definition tuning_runs (tr : list effect) : nat :=
  length (List.filter tuning_effect tr).


(** Once the flag is set it stays set and no tuning pragma is run. *)
Definition tuned_for_good (w w' : World) : Prop :=
  _db_initialized w = true ->
  _db_initialized w' = true /\ tuning_runs (trace w') = tuning_runs (trace w).

(** ** The two caches *)

(** The test of [_get_events_cached] under the lock: is the slot filled and
    younger than the TTL at the reading [now]? *)
Definition events_cache_fresh (ttl now : Q) (w : World) : bool :=
  match _events_cache_data w with
  | Some _ => Qlt_bool (float_sub now (_events_cache_ts w)) ttl
  | None => false
  end.

(** A miss of the catalog cache, written out: the query, then the store of
    its rows under the reading of the clock taken when the call started. *)
Definition events_refill (c : conn) (w : World) : result (list tuple) * World :=
  match fault (next_outcome w) with
  | Some x => (Raise x, log (EvExecute c SelectEvents false) (elapse w))
  | None =>
      let rows := map event_row (events (view c w)) in
      (Ok rows,
       log (EvCatalogStore (clock w) rows)
           (set_events_cache (clock w) (Some rows)
              (log (EvExecute c SelectEvents true) (elapse w))))
  end.

(** A miss of the per-user cache, written out. *)
Definition my_events_refill (c : conn) (u : string) (w : World) : result (list tuple) * World :=
  match fault (next_outcome w) with
  | Some x => (Raise x, log (EvExecute c (SelectMyEvents u) false) (elapse w))
  | None =>
      let rows := my_events_rows (view c w) u in
      (Ok rows,
       log (EvMyEventsStore u (clock w) rows)
           (set_my_events_cache
              (<[u := (clock w, rows)]> (_my_events_cache w))
              (log (EvExecute c (SelectMyEvents u) true) (elapse w))))
  end.

Definition catalog_query (e : effect) : bool :=
  match e with
  | EvExecute _ SelectEvents _ => true
  | _ => false
  end.

(** How many times the store was asked for the catalog. *)
Definition catalog_queries (tr : list effect) : nat :=
  length (List.filter catalog_query tr).

(** [u]'s entry in the per-user mapping, if there was one, is still there. *)
Definition user_kept (u : string) (w w' : World) : Prop :=
  is_Some (_my_events_cache w !! u) -> is_Some (_my_events_cache w' !! u).

(** The operations that ask for the removal of [u]'s entry: a direct call
    of [_invalidate_my_events_cache u], and [register_event] for [u], which
    makes that call. *)
Definition invalidates (u : string) (o : op) : Prop :=
  match o with
  | CallInvalidate u' | ReqRegisterEvent _ u' => u' = u
  | _ => False
  end.

(** The operations of a sequence that may ask for the removal of a cache
    entry do so for the usernames in [allowed] only. *)
Definition op_allowed (allowed : string -> Prop) (o : op) : Prop :=
  match o with
  | CallInvalidate u | ReqRegisterEvent _ u => allowed u
  | _ => True
  end.

(** ** The [try] blocks of the two writers *)

(** The body of [register_event]'s [try] block. *)
Definition insert_and_commit (c : conn) (user : string) (event_id : Z) : M unit :=
  execute c (InsertRegistration user event_id) ;;; commit c.

(** The body of [register]'s inner [try] block. *)
Definition insert_user_and_commit (c : conn) (username password : string) : M unit :=
  execute c (InsertUser username password) ;;; commit c.

Definition my_events_redirect (user : string) : response :=
  RedirectResponse ("/my-events?user=" ++ user) 302.

(** ** Sample stores and processes for the worked examples *)

Definition demo_tables : Tables :=
  mkTables [("alice", "pw")]
           [(5, "Hackathon", 100); (7, "Quiz", 50)]
           [("alice", 7)].

Definition ok_call : outcome := mkOutcome 0 None.

Definition failing_call : outcome := mkOutcome 0 (Some OperationalError).

(** A process at time 1 that cached alice's registrations at time 0, facing
    an environment in which the seventh sqlite call to come fails (for
    [register_event] and [register] on a first [get_db], that is the
    commit). *)
Definition commit_fails_world : World :=
  mkWorld demo_tables [] 0%nat [] false 0 None
          (<["alice" := (0%Q, [[VText "Quiz"; VInt 50]])]> ∅) 1
          [ok_call; ok_call; ok_call; ok_call; ok_call; ok_call; failing_call] [].


(** A catalog query that takes three seconds, started at time 10 by a
    process whose slot is empty. *)
Definition slow_query_world : World :=
  set_env 10 [mkOutcome 3 None] (fresh demo_tables).

(** A catalog that gains its events only after the first read: the process
    reads the empty catalog at time 0 and caches it, the events are then
    created by another process, and the clock moves on to 3/2. *)
Definition late_catalog_world : World :=
  run_ops 2 0 [CallGetEventsCached 0%nat; EnvStore demo_tables; EnvSleep (3 # 2)]
          (fresh (mkTables [] [] [])).

(** A process whose catalog slot was filled at the reading 100.1, with a TTL
    of an hour, at the reading 3700.1. *)
Definition rounding_world : World :=
  set_env (float_round (37001 # 10)) []
          (snd (_get_events_cached 3600 0%nat
                  (set_env (float_round (1001 # 10)) [] (fresh demo_tables)))).

(** A store in which alice exists and no event does. *)
Definition empty_catalog_world : World :=
  fresh (mkTables [("alice", "pw")] [] []).

(** ** The store, the handles and the requests *)

(** The statements that write to a table. *)
Definition is_write (s : stmt) : bool :=
  match s with
  | InsertUser _ _ | InsertRegistration _ _ => true
  | _ => false
  end.

(** No sqlite call to come fails (the calls may take any time). *)
Definition calm (w : World) : bool := forallb succeeded (env w).

Definition usernames (t : Tables) : list string := map fst (users t).

(** The test of [login]: is there a user row with this name and password? *)
Definition credentials_match (t : Tables) (u p : string) : bool :=
  existsb (fun up => String.eqb (fst up) u && String.eqb (snd up) p) (users t).

Definition login_failed_page : response := TemplateResponse "login.html" [] "".

Definition events_redirect (u : string) : response :=
  RedirectResponse ("/events?user=" ++ u) 302.

(** The open handles once [c] is closed. *)
Definition without_handle (c : conn) (l : list conn) : list conn :=
  List.filter (fun c' => negb (Nat.eqb c' c)) l.

(** The requests, and those of them that acquire a storage handle. *)
Definition is_request (o : op) : bool :=
  match o with
  | ReqStartup | ReqRegister _ _ | ReqLogin _ _ | ReqEvents _
  | ReqRegisterEvent _ _ | ReqMyEvents _ => true
  | _ => false
  end.

Definition acquires (o : op) : bool :=
  match o with
  | ReqRegisterEvent e _ => negb (Z.eqb e 404)
  | _ => is_request o
  end.

(** The operations that read the catalog through its cache. *)
Definition reads_catalog (o : op) : Prop :=
  match o with
  | ReqEvents _ | CallGetEventsCached _ => True
  | _ => False
  end.

(** The operations that concern [u]'s entry of the per-user cache: a read
    for [u] and a removal for [u]. *)
Definition touches (u : string) (o : op) : Prop :=
  match o with
  | ReqMyEvents u' | CallGetMyEventsCached _ u' | CallInvalidate u'
  | ReqRegisterEvent _ u' => u' = u
  | _ => False
  end.

(** The store is changed from outside the process. *)
Definition outside_change (o : op) : Prop :=
  match o with
  | EnvStore _ => True
  | _ => False
  end.

(** The operations allowed when writes ([gw]), catalog refills ([gc]),
    updates of the per-user entries of some usernames ([gu]) and outside
    changes of the store ([gs]) are. *)
Definition op_guard (gw gc : Prop) (gu : string -> Prop) (gs : Prop) (o : op) : Prop :=
  match o with
  | ReqRegister _ _ => gw
  | ReqRegisterEvent _ u => gw /\ gu u
  | ReqEvents _ | CallGetEventsCached _ => gc
  | ReqMyEvents u | CallGetMyEventsCached _ u | CallInvalidate u => gu u
  | EnvStore _ => gs
  | _ => True
  end.

Definition conns_same (w w' : World) : Prop := open_conns w' = open_conns w.

Definition events_same (w w' : World) : Prop := events (db w') = events (db w).

Definition slot_same (w w' : World) : Prop :=
  _events_cache_ts w' = _events_cache_ts w /\
  _events_cache_data w' = _events_cache_data w.

Definition entry_same (u : string) (w w' : World) : Prop :=
  _my_events_cache w' !! u = _my_events_cache w !! u.

(** Started with no transaction open, the computation ends with none open
    and with the committed tables as they were. *)
Definition quiet_store (w w' : World) : Prop :=
  pending w = [] -> db w' = db w /\ pending w' = [].

(** What one request may do to the store: nothing, or append one user whose
    name was not there, or append one registration; and no transaction is
    left open. *)
Definition request_step (w w' : World) : Prop :=
  pending w' = [] /\
  (db w' = db w \/
   (exists u p, ~ In u (usernames (db w)) /\ db w' = apply_write (db w) (WUser u p)) \/
   (exists u e, db w' = apply_write (db w) (WRegistration u e))).

(** In an environment in which no sqlite call fails the computation
    returns, and leaves such an environment. *)
Definition succeeds {A} (m : M A) : Prop :=
  forall w, calm w = true -> exists a w', m w = (Ok a, w') /\ calm w' = true.

(** The tables only grow, by rows appended at their end, and the catalog
    does not change. *)
Definition grown (t t' : Tables) : Prop :=
  events t' = events t /\
  (exists us, users t' = users t ++ us) /\
  (exists rs, registrations t' = registrations t ++ rs).

(** * Verification *)

(** ** Stepwise relations between the world before and after a computation *)

Section Respects.

Variable R : World -> World -> Prop.
Hypothesis R_refl : forall w, R w w.
Hypothesis R_trans : forall w1 w2 w3, R w1 w2 -> R w2 w3 -> R w1 w3.

Lemma respects_ret {A} (a : A) : respects R (ret a).
Proof. intros w. apply R_refl. Qed.

Lemma respects_raise {A} (e : exn) : respects R (@raise A e).
Proof. intros w. apply R_refl. Qed.

Lemma respects_gets {A} (f : World -> A) : respects R (gets f).
Proof. intros w. apply R_refl. Qed.

Lemma respects_bind {A B} (m : M A) (k : A -> M B) :
  respects R m -> (forall a, respects R (k a)) -> respects R (bind m k).
Proof.
  intros Hm Hk w. unfold bind. specialize (Hm w).
  destruct (m w) as [[a | e] w1]; simpl in *; [| exact Hm].
  eapply R_trans; [exact Hm | apply Hk].
Qed.

Lemma respects_try_finally {A} (body : M A) (fin : M unit) :
  respects R body -> respects R fin -> respects R (try_finally body fin).
Proof.
  intros Hb Hf w. unfold try_finally. specialize (Hb w).
  destruct (body w) as [r w1]; simpl in *. specialize (Hf w1).
  destruct (fin w1) as [[[] | e] w2]; simpl in *; eapply R_trans; eauto.
Qed.

Lemma respects_try_except {A} (body handler : M A) :
  respects R body -> respects R handler -> respects R (try_except body handler).
Proof.
  intros Hb Hh w. unfold try_except. specialize (Hb w).
  destruct (body w) as [[a | e] w1]; simpl in *; [exact Hb |].
  eapply R_trans; [exact Hb | apply Hh].
Qed.

Lemma respects_if {A} (b : bool) (m1 m2 : M A) :
  respects R m1 -> respects R m2 -> respects R (if b then m1 else m2).
Proof. destruct b; auto. Qed.

(** The handlers are built from [get_db], the sqlite calls other than the
    tuning pragmas, and the cache updates; a relation those respect is
    respected by every handler.  The removal of a cache entry is asked
    for the usernames in [allowed] only. *)
Variables ttl_events ttl_my : Q.
Variable allowed : string -> Prop.
Hypothesis R_connect : respects R connect.
Hypothesis R_execute : forall c s, is_tuning s = false -> respects R (execute c s).
Hypothesis R_commit : forall c, respects R (commit c).
Hypothesis R_close : forall c, respects R (close c).
Hypothesis R_get_db : respects R get_db.
Hypothesis R_store_events : forall ts data, respects R (store_events_cache ts data).
Hypothesis R_store_my : forall u ts data, respects R (store_my_events_cache u ts data).
Hypothesis R_invalidate : forall u, allowed u -> respects R (_invalidate_my_events_cache u).
Hypothesis R_env : forall t sc w, R w (set_env t sc w).
Hypothesis R_store : forall t w, R w (set_db (fun _ => t) w).

Local Hint Resolve respects_ret respects_raise respects_gets respects_bind
  respects_try_finally respects_try_except respects_if
  R_connect R_execute R_commit R_close R_get_db R_store_events R_store_my
  R_invalidate : core.

Lemma respects_startup : respects R startup.
Proof. unfold startup. auto 20. Qed.

Lemma respects_register u p : respects R (register u p).
Proof.
  unfold register. apply respects_bind; [auto | intros c].
  apply respects_bind; [auto 10 | intros [r |]; auto].
Qed.

Lemma respects_login u p : respects R (login u p).
Proof.
  unfold login. apply respects_bind; [auto | intros c].
  apply respects_bind; [auto | intros [| x l]; auto].
Qed.

Lemma respects_register_event e u : allowed u -> respects R (register_event e u).
Proof. intros Hu. unfold register_event. auto 20. Qed.

Lemma respects_get_events_cached c : respects R (_get_events_cached ttl_events c).
Proof.
  unfold _get_events_cached. apply respects_if; [auto |].
  apply respects_bind; [unfold monotonic; auto | intros now].
  apply respects_bind; [auto | intros [data |]; auto].
Qed.

Lemma respects_get_my_events_cached c u :
  respects R (_get_my_events_cached ttl_my c u).
Proof.
  unfold _get_my_events_cached. apply respects_if; [auto |].
  apply respects_bind; [unfold monotonic; auto | intros now].
  apply respects_bind; [auto | intros [data |]; auto].
Qed.

Lemma respects_events_page u : respects R (events_page ttl_events u).
Proof.
  unfold events_page. pose proof respects_get_events_cached. auto 10.
Qed.

Lemma respects_my_events u : respects R (my_events ttl_my u).
Proof.
  unfold my_events. pose proof respects_get_my_events_cached. auto 10.
Qed.

Lemma respects_run_op o w :
  op_allowed allowed o -> R w (run_op ttl_events ttl_my o w).
Proof.
  destruct o; simpl; intros Ho; unfold exec.
  - apply respects_startup.
  - apply respects_register.
  - apply respects_login.
  - apply respects_events_page.
  - apply respects_register_event; exact Ho.
  - apply respects_my_events.
  - apply R_get_db.
  - apply R_close.
  - apply respects_get_events_cached.
  - apply respects_get_my_events_cached.
  - apply R_invalidate; exact Ho.
  - apply R_env.
  - apply R_env.
  - apply R_store.
Qed.

Lemma respects_run_ops ops w :
  Forall (op_allowed allowed) ops -> R w (run_ops ttl_events ttl_my ops w).
Proof.
  unfold run_ops. revert w.
  induction ops as [| o ops IH]; intros w Hall; simpl; [apply R_refl |].
  inversion Hall as [| ? ? Ho Hops]; subst.
  eapply R_trans; [apply respects_run_op; exact Ho | apply IH; exact Hops].
Qed.

End Respects.

Section RespectsGetDb.

Variable R : World -> World -> Prop.
Hypothesis R_refl : forall w, R w w.
Hypothesis R_trans : forall w1 w2 w3, R w1 w2 -> R w2 w3 -> R w1 w3.
Hypothesis R_connect : respects R connect.
Hypothesis R_execute : forall c s, respects R (execute c s).
Hypothesis R_flag : respects R (modify (set_db_initialized true)).

Local Hint Resolve R_connect R_execute R_flag : core.

Lemma respects_init_db_settings c : respects R (_init_db_settings c).
Proof.
  pose proof (fun A B => @respects_bind R R_trans A B).
  pose proof (fun A => @respects_ret R R_refl A).
  unfold _init_db_settings. auto 10.
Qed.

Lemma respects_get_db : respects R get_db.
Proof.
  pose proof respects_init_db_settings.
  pose proof (fun A B => @respects_bind R R_trans A B) as Hbind.
  pose proof (fun A => @respects_ret R R_refl A).
  pose proof (fun A => @respects_gets R R_refl A).
  unfold get_db. apply Hbind; [auto | intros c].
  apply Hbind; [auto | intros b].
  apply Hbind; [| auto 10].
  apply respects_if; [| auto].
  apply Hbind; [auto | intros b']. apply respects_if; auto 10.
Qed.

End RespectsGetDb.

(** ** What a sqlite call can change *)

Lemma run_stmt_pending c s w rows w2 :
  run_stmt c s w = inr (rows, w2) ->
  exists f, w2 = set_pending f w.
Proof.
  assert (Hid : w = set_pending (fun q => q) w) by (destruct w; reflexivity).
  destruct s; simpl; intros H;
    try (injection H as _ <-; exists (fun q => q); exact Hid).
  - destruct (existsb _ _); [discriminate |].
    injection H as _ <-. eexists; reflexivity.
  - destruct (in_int64 event_id); [| discriminate].
    injection H as _ <-. eexists; reflexivity.
Qed.

Lemma connect_step w :
  db_step (fun e => exists c ok, e = EvConnect c ok) w (snd (connect w)).
Proof.
  unfold connect. destruct (fault (next_outcome w)); simpl;
    repeat split; eauto.
Qed.

Lemma execute_step c s w :
  db_step (fun e => exists ok, e = EvExecute c s ok) w (snd (execute c s w)).
Proof.
  unfold execute. destruct (fault (next_outcome w)); simpl.
  { repeat split; eauto. }
  destruct (run_stmt c s (elapse w)) as [x | [rows w2]] eqn:Hs; simpl.
  { repeat split; eauto. }
  apply run_stmt_pending in Hs as [f ->]. simpl. repeat split; eauto.
Qed.

Lemma commit_step c w :
  db_step (fun e => exists ok, e = EvCommit c ok) w (snd (commit c w)).
Proof.
  unfold commit. destruct (fault (next_outcome w)); simpl;
    repeat split; eauto.
Qed.

Lemma close_step c w :
  db_step (fun e => e = EvClose c) w (snd (close c w)).
Proof. unfold close. simpl. repeat split; eauto. Qed.

(** ** The caches are changed by the cache functions only *)

Lemma same_caches_refl w : same_caches w w.
Proof. repeat split. Qed.

Lemma same_caches_trans w1 w2 w3 :
  same_caches w1 w2 -> same_caches w2 w3 -> same_caches w1 w3.
Proof. unfold same_caches. intros (-> & -> & ->) (-> & -> & ->). auto. Qed.

Lemma db_step_same_caches P w w' : db_step P w w' -> same_caches w w'.
Proof. intros (_ & ? & ? & ? & _). repeat split; assumption. Qed.

Lemma same_caches_connect : respects same_caches connect.
Proof. intros w. eapply db_step_same_caches, connect_step. Qed.

Lemma same_caches_execute c s : respects same_caches (execute c s).
Proof. intros w. eapply db_step_same_caches, execute_step. Qed.

Lemma same_caches_commit c : respects same_caches (commit c).
Proof. intros w. eapply db_step_same_caches, commit_step. Qed.

Lemma same_caches_close c : respects same_caches (close c).
Proof. intros w. eapply db_step_same_caches, close_step. Qed.

Lemma same_caches_get_db : respects same_caches get_db.
Proof.
  apply respects_get_db.
  - apply same_caches_refl.
  - apply same_caches_trans.
  - apply same_caches_connect.
  - apply same_caches_execute.
  - intros w. repeat split.
Qed.

(** ** [_invalidate_my_events_cache] *)

(** C7.  For every username [u], [_invalidate_my_events_cache u] returns
    normally; afterwards [u] has no entry in the per-user mapping; every
    other username's entry is what it was; and when [u] had no entry the
    mapping is unchanged (nothing is created).  The catalog slot and the
    store are not touched. *)
Theorem invalidate_removes_only_that_user (u : string) (w : World) :
  fst (_invalidate_my_events_cache u w) = Ok tt /\
  _my_events_cache (snd (_invalidate_my_events_cache u w)) !! u = None /\
  (forall u', u' <> u ->
     _my_events_cache (snd (_invalidate_my_events_cache u w)) !! u'
     = _my_events_cache w !! u') /\
  (_my_events_cache w !! u = None ->
     _my_events_cache (snd (_invalidate_my_events_cache u w)) = _my_events_cache w) /\
  _events_cache_data (snd (_invalidate_my_events_cache u w)) = _events_cache_data w /\
  _events_cache_ts (snd (_invalidate_my_events_cache u w)) = _events_cache_ts w /\
  db (snd (_invalidate_my_events_cache u w)) = db w.
Proof.
  unfold _invalidate_my_events_cache, modify; simpl.
  split; [reflexivity |]. split; [apply lookup_delete_eq |].
  split; [intros u' Hne; apply lookup_delete_ne; congruence |].
  split; [intros Hnone; apply delete_id; exact Hnone |].
  repeat split.
Qed.

Lemma invalidate_absent_user :
  _my_events_cache (snd (_invalidate_my_events_cache "bob" (fresh demo_tables))) = ∅.
Proof.
  apply (invalidate_removes_only_that_user "bob" (fresh demo_tables)). reflexivity.
Defined.

(** ** [register_event] with the id 404 *)

(** C9.  For [event_id = 404] and every username, [register_event] raises
    [ZeroDivisionError] and the world is exactly what it was: no storage
    handle was acquired (the trace has no new effect), no row was inserted
    and no cache entry was invalidated. *)
Theorem register_event_404_raises_before_any_effect (user : string) (w : World) :
  register_event 404 user w = (Raise ZeroDivisionError, w).
Proof. reflexivity. Qed.

(** ** Caching disabled *)

Lemma view_elapse c w : view c (elapse w) = view c w.
Proof. reflexivity. Qed.

(** With a TTL that is not positive a cached read is the store query and
    nothing else. *)
Lemma get_events_cached_disabled ttl c w :
  (ttl <= 0)%Q ->
  _get_events_cached ttl c w = bind (execute c SelectEvents) ret w.
Proof.
  intros Hle. unfold _get_events_cached.
  apply Qle_bool_iff in Hle. rewrite Hle. reflexivity.
Qed.

Lemma get_my_events_cached_disabled ttl c u w :
  (ttl <= 0)%Q ->
  _get_my_events_cached ttl c u w = bind (execute c (SelectMyEvents u)) ret w.
Proof.
  intros Hle. unfold _get_my_events_cached.
  apply Qle_bool_iff in Hle. rewrite Hle. reflexivity.
Qed.

(** A query, seen from the caller: one logged effect, the rows of the
    caller's view of the store unless the environment makes it fail, and
    the module globals as they were. *)
Lemma execute_select_events c w :
  execute c SelectEvents w =
  (match fault (next_outcome w) with
   | None => Ok (map event_row (events (view c w)))
   | Some x => Raise x
   end,
   log (EvExecute c SelectEvents (succeeded (next_outcome w))) (elapse w)).
Proof.
  unfold execute, succeeded. destruct (fault (next_outcome w)); reflexivity.
Qed.

Lemma execute_select_my_events c u w :
  execute c (SelectMyEvents u) w =
  (match fault (next_outcome w) with
   | None => Ok (my_events_rows (view c w) u)
   | Some x => Raise x
   end,
   log (EvExecute c (SelectMyEvents u) (succeeded (next_outcome w))) (elapse w)).
Proof.
  unfold execute, succeeded. destruct (fault (next_outcome w)); reflexivity.
Qed.

(** C5.  When the configured TTL is [<= 0], [_get_events_cached] and
    [_get_my_events_cached] each perform exactly one store query on every
    call, return the rows of the store (or propagate the query's error), and
    leave the catalog slot and the per-user mapping untouched. *)
Theorem nonpositive_ttl_disables_caching
    (ttl_events ttl_my : Q) (c : conn) (u : string) (w : World) :
  (ttl_events <= 0)%Q ->
  (ttl_my <= 0)%Q ->
  (fst (_get_events_cached ttl_events c w)
   = match fault (next_outcome w) with
     | None => Ok (map event_row (events (view c w)))
     | Some x => Raise x
     end /\
   trace (snd (_get_events_cached ttl_events c w))
   = trace w ++ [EvExecute c SelectEvents (succeeded (next_outcome w))] /\
   same_caches w (snd (_get_events_cached ttl_events c w)))
  /\
  (fst (_get_my_events_cached ttl_my c u w)
   = match fault (next_outcome w) with
     | None => Ok (my_events_rows (view c w) u)
     | Some x => Raise x
     end /\
   trace (snd (_get_my_events_cached ttl_my c u w))
   = trace w ++ [EvExecute c (SelectMyEvents u) (succeeded (next_outcome w))] /\
   same_caches w (snd (_get_my_events_cached ttl_my c u w))).
Proof.
  intros He Hm. split.
  - rewrite (get_events_cached_disabled _ _ _ He). unfold bind.
    rewrite execute_select_events.
    destruct (fault (next_outcome w)); simpl; repeat split.
  - rewrite (get_my_events_cached_disabled _ _ _ _ Hm). unfold bind.
    rewrite execute_select_my_events.
    destruct (fault (next_outcome w)); simpl; repeat split.
Qed.

Lemma nonpositive_ttl_on_demo_store :
  fst (_get_events_cached 0 0%nat (fresh demo_tables))
  = Ok [[VInt 5; VText "Hackathon"; VInt 100]; [VInt 7; VText "Quiz"; VInt 50]] /\
  fst (_get_my_events_cached (-1) 0%nat "alice" (fresh demo_tables))
  = Ok [[VText "Quiz"; VInt 50]] /\
  _events_cache_data (snd (_get_events_cached 0 0%nat (fresh demo_tables))) = None /\
  _my_events_cache (snd (_get_my_events_cached (-1) 0%nat "alice" (fresh demo_tables))) = ∅.
Proof.
  assert (H0 : (0 <= 0)%Q) by (unfold Qle; simpl; lia).
  assert (H1 : (-1 <= 0)%Q) by (unfold Qle; simpl; lia).
  destruct (nonpositive_ttl_disables_caching 0 (-1) 0%nat "alice" (fresh demo_tables) H0 H1)
    as [(Hr1 & _ & (_ & Hd & _)) (Hr2 & _ & (_ & _ & Hc))].
  split; [exact Hr1 |]. split; [exact Hr2 |]. split; [exact Hd | exact Hc].
Defined.

(** ** Transactions *)

Lemma writes_of_app c p q : writes_of c (p ++ q) = writes_of c p ++ writes_of c q.
Proof. unfold writes_of. rewrite List.filter_app, List.map_app. reflexivity. Qed.

Lemma writes_of_own c wr : writes_of c [(c, wr)] = [wr].
Proof. unfold writes_of. simpl. rewrite Nat.eqb_refl. reflexivity. Qed.

Lemma apply_writes_registrations ws t r :
  In r (registrations t) -> In r (registrations (fold_left apply_write ws t)).
Proof.
  revert t. induction ws as [| wr ws IH]; intros t Hin; simpl; [exact Hin |].
  apply IH. destruct wr; simpl; [exact Hin |]. apply in_or_app. left. exact Hin.
Qed.

Lemma apply_writes_events ws t : events (fold_left apply_write ws t) = events t.
Proof.
  revert t. induction ws as [| wr ws IH]; intros t; simpl; [reflexivity |].
  rewrite IH. destruct wr; reflexivity.
Qed.

(** A connection sees every committed registration, and the catalog as
    committed. *)
Lemma view_registrations c w r :
  In r (registrations (db w)) -> In r (registrations (view c w)).
Proof. apply apply_writes_registrations. Qed.

Lemma view_events c w : events (view c w) = events (db w).
Proof. apply apply_writes_events. Qed.

(** A connection sees the registration it has just inserted. *)
Lemma view_after_insert c u e f w :
  pending w = f ++ [(c, WRegistration u e)] ->
  In (u, e) (registrations (view c w)).
Proof.
  intros Hp. unfold view. rewrite Hp, writes_of_app, writes_of_own, fold_left_app.
  simpl. apply in_or_app. right. left. reflexivity.
Qed.

Lemma register_event_unfold e u w :
  Z.eqb e 404 = false ->
  register_event e u w =
  match get_db w with
  | (Raise x, w1) => (Raise x, w1)
  | (Ok c, w1) =>
      match insert_and_commit c u e w1 with
      | (Raise x, w2) => (Raise x, snd (close c w2))
      | (Ok _, w2) =>
          (Ok (my_events_redirect u),
           snd (_invalidate_my_events_cache u (snd (close c w2))))
      end
  end.
Proof.
  intros Hne. unfold register_event, insert_and_commit. rewrite Hne.
  unfold bind at 1. unfold ret at 1. unfold bind at 1.
  destruct (get_db w) as [[c | x] w1]; [| reflexivity].
  unfold bind at 1. unfold try_finally.
  destruct (bind (execute c (InsertRegistration u e)) (fun _ => commit c) w1)
    as [[[] | x] w2]; reflexivity.
Qed.

(** When the insert and the commit both succeed, the row is in the
    committed store and the two calls are the only effects logged. *)
Lemma insert_and_commit_ok c u e w w2 :
  insert_and_commit c u e w = (Ok tt, w2) ->
  In (u, e) (registrations (db w2)) /\
  events (db w2) = events (db w) /\
  same_caches w w2 /\
  trace w2 = trace w ++ [EvExecute c (InsertRegistration u e) true; EvCommit c true].
Proof.
  unfold insert_and_commit, bind, execute. 
  destruct (fault (next_outcome w)); [discriminate |].
  simpl run_stmt. destruct (in_int64 e); [| discriminate].
  unfold commit.
  match goal with |- context [fault (next_outcome ?W)] =>
    destruct (fault (next_outcome W)); [discriminate |] end.
  intros H. injection H as <-. simpl.
  split; [| split; [| split]].
  - eapply view_after_insert. simpl. reflexivity.
  - match goal with |- events (view c ?W) = _ => rewrite (view_events c W) end.
    reflexivity.
  - repeat split.
  - rewrite <- app_assoc. reflexivity.
Qed.

(** When either fails, the error reaches the caller of the block with the
    caches untouched. *)
Lemma insert_and_commit_same_caches c u e : respects same_caches (insert_and_commit c u e).
Proof.
  unfold insert_and_commit. apply respects_bind.
  - apply same_caches_trans.
  - apply same_caches_execute.
  - intros _. apply same_caches_commit.
Qed.

(** ** [register_event]: commit, then invalidate *)

Lemma logs_only_refl P w : logs_only P w w.
Proof. exists []. split; [symmetry; apply app_nil_r | constructor]. Qed.

Lemma logs_only_trans P w1 w2 w3 :
  logs_only P w1 w2 -> logs_only P w2 w3 -> logs_only P w1 w3.
Proof.
  intros (t1 & H1 & F1) (t2 & H2 & F2). exists (t1 ++ t2). split.
  - rewrite H2, H1, app_assoc. reflexivity.
  - apply Forall_app. split; assumption.
Qed.

Lemma db_step_logs_only (P' P : effect -> Prop) w w' :
  (forall e, P' e -> P e) -> db_step P' w w' -> logs_only P w w'.
Proof.
  intros Himp (_ & _ & _ & _ & e & Ht & He). exists [e]. split; [exact Ht |].
  constructor; [apply Himp; exact He | constructor].
Qed.

Lemma sqlite_only_connect : respects (logs_only is_sqlite_effect) connect.
Proof.
  intros w. eapply db_step_logs_only; [| apply connect_step].
  intros e (c & ok & ->). exact I.
Qed.

Lemma sqlite_only_execute c s : respects (logs_only is_sqlite_effect) (execute c s).
Proof.
  intros w. eapply db_step_logs_only; [| apply execute_step].
  intros e (ok & ->). exact I.
Qed.

Lemma sqlite_only_commit c : respects (logs_only is_sqlite_effect) (commit c).
Proof.
  intros w. eapply db_step_logs_only; [| apply commit_step].
  intros e (ok & ->). exact I.
Qed.

Lemma sqlite_only_close c : respects (logs_only is_sqlite_effect) (close c).
Proof.
  intros w. eapply db_step_logs_only; [| apply close_step].
  intros e ->. exact I.
Qed.

Lemma sqlite_only_get_db : respects (logs_only is_sqlite_effect) get_db.
Proof.
  apply respects_get_db.
  - apply logs_only_refl.
  - apply logs_only_trans.
  - apply sqlite_only_connect.
  - apply sqlite_only_execute.
  - intros w. exists []. split; [symmetry; apply app_nil_r | constructor].
Qed.

Lemma sqlite_only_insert_and_commit c u e :
  respects (logs_only is_sqlite_effect) (insert_and_commit c u e).
Proof.
  unfold insert_and_commit. apply respects_bind.
  - apply logs_only_trans.
  - apply sqlite_only_execute.
  - intros _. apply sqlite_only_commit.
Qed.

(** What [register_event] has done when it returns and when it raises. *)
Lemma register_event_outcomes (e : Z) (u : string) (w : World) :
  match register_event e u w with
  | (Raise x, w') =>
      _my_events_cache w' = _my_events_cache w /\
      logs_only is_sqlite_effect w w'
  | (Ok r, w') =>
      r = my_events_redirect u /\
      In (u, e) (registrations (db w')) /\
      _my_events_cache w' = delete u (_my_events_cache w) /\
      exists c pre,
        Forall is_sqlite_effect pre /\
        trace w' = trace w ++ pre ++
                   [EvExecute c (InsertRegistration u e) true; EvCommit c true;
                    EvClose c; EvMyEventsPop u]
  end /\
  (forall c w1 x w2,
     e <> 404 -> get_db w = (Ok c, w1) ->
     execute c (InsertRegistration u e) w1 = (Raise x, w2) ->
     fst (register_event e u w) = Raise x) /\
  (forall c w1 rows w2 x w3,
     e <> 404 -> get_db w = (Ok c, w1) ->
     execute c (InsertRegistration u e) w1 = (Ok rows, w2) ->
     commit c w2 = (Raise x, w3) ->
     fst (register_event e u w) = Raise x).
Proof.
  destruct (Z.eqb e 404) eqn:He.
  { apply Z.eqb_eq in He. subst e.
    change (register_event 404 u w) with (@Raise response ZeroDivisionError, w).
    split; [split; [reflexivity | apply logs_only_refl] |].
    split; intros; congruence. }
  rewrite (register_event_unfold _ _ _ He).
  pose proof (same_caches_get_db w) as (_ & _ & Hc1).
  pose proof (sqlite_only_get_db w) as Hl1.
  destruct (get_db w) as [[c | x] w1]; simpl in Hc1, Hl1.
  2: { split; [split; assumption |]. split; intros; congruence. }
  pose proof (insert_and_commit_same_caches c u e w1) as (_ & _ & Hc2).
  pose proof (sqlite_only_insert_and_commit c u e w1) as Hl2.
  destruct (insert_and_commit c u e w1) as [[[] | x] w2] eqn:Hic;
    simpl in Hc2, Hl2.
  - split.
    + apply insert_and_commit_ok in Hic as (Hin & _ & _ & Htr).
      split; [reflexivity |]. split; [exact Hin |].
      split; [simpl; congruence |].
      destruct Hl1 as (pre & Hpre & Fpre). exists c, pre.
      split; [exact Fpre |]. simpl. rewrite Htr, Hpre.
      rewrite <- !app_assoc. reflexivity.
    + unfold insert_and_commit, bind in Hic.
      split.
      * intros c' w1' x w2' _ Hg Hx. injection Hg as <- <-.
        rewrite Hx in Hic. discriminate.
      * intros c' w1' rows w2' x w3' _ Hg Hx Hcm. injection Hg as <- <-.
        rewrite Hx, Hcm in Hic. discriminate.
  - split.
    + split; [simpl; congruence |].
      eapply logs_only_trans; [exact Hl1 |].
      eapply logs_only_trans; [exact Hl2 |]. apply sqlite_only_close.
    + unfold insert_and_commit, bind in Hic.
      split.
      * intros c' w1' x' w2' _ Hg Hx. injection Hg as <- <-.
        rewrite Hx in Hic. simpl. congruence.
      * intros c' w1' rows w2' x' w3' _ Hg Hx Hcm. injection Hg as <- <-.
        rewrite Hx, Hcm in Hic. simpl. congruence.
Qed.

(** C2.  [register_event] commits the insert before it invalidates the
    user's cache entry: when it returns, everything it logged ends with the
    successful insert, the successful commit, the close of the handle and
    only then the removal of the user's entry, and the row is in the
    committed store.  When it raises, the per-user mapping is what it was
    and no cache effect was logged.  An error of the insert or of the commit
    is the error the caller gets.  When [get_db], the insert and the commit
    succeed, it returns the redirect: at the commit the row is in the
    committed store while the per-user mapping is still what it was, and
    the final state is that of the commit with the handle closed and then
    the user's entry removed.  An error of [get_db] reaches the caller
    too. *)
Theorem register_event_commits_then_invalidates (e : Z) (u : string) (w : World) :
  match register_event e u w with
  | (Raise x, w') =>
      _my_events_cache w' = _my_events_cache w /\
      logs_only is_sqlite_effect w w'
  | (Ok r, w') =>
      r = my_events_redirect u /\
      In (u, e) (registrations (db w')) /\
      _my_events_cache w' = delete u (_my_events_cache w) /\
      exists c pre,
        Forall is_sqlite_effect pre /\
        trace w' = trace w ++ pre ++
                   [EvExecute c (InsertRegistration u e) true; EvCommit c true;
                    EvClose c; EvMyEventsPop u]
  end /\
  (forall c w1 x w2,
     e <> 404 -> get_db w = (Ok c, w1) ->
     execute c (InsertRegistration u e) w1 = (Raise x, w2) ->
     fst (register_event e u w) = Raise x) /\
  (forall c w1 rows w2 x w3,
     e <> 404 -> get_db w = (Ok c, w1) ->
     execute c (InsertRegistration u e) w1 = (Ok rows, w2) ->
     commit c w2 = (Raise x, w3) ->
     fst (register_event e u w) = Raise x) /\
  (forall c w1 rows w2 w3,
     e <> 404 -> get_db w = (Ok c, w1) ->
     execute c (InsertRegistration u e) w1 = (Ok rows, w2) ->
     commit c w2 = (Ok tt, w3) ->
     register_event e u w
     = (Ok (my_events_redirect u),
        snd (_invalidate_my_events_cache u (snd (close c w3)))) /\
     In (u, e) (registrations (db w3)) /\
     _my_events_cache w3 = _my_events_cache w) /\
  (forall x w1,
     e <> 404 -> get_db w = (Raise x, w1) ->
     register_event e u w = (Raise x, w1)).
Proof.
  destruct (register_event_outcomes e u w) as (H1 & H2 & H3).
  split; [exact H1 |]. split; [exact H2 |]. split; [exact H3 |]. split.
  - intros c w1 rows w2 w3 Hne Hg Hx Hcm. apply Z.eqb_neq in Hne.
    assert (Hic : insert_and_commit c u e w1 = (Ok tt, w3))
      by (unfold insert_and_commit, bind; rewrite Hx; exact Hcm).
    rewrite (register_event_unfold _ _ _ Hne), Hg, Hic.
    split; [reflexivity |].
    pose proof (same_caches_get_db w) as (_ & _ & Hc1). rewrite Hg in Hc1.
    pose proof (insert_and_commit_same_caches c u e w1) as (_ & _ & Hc2).
    rewrite Hic in Hc2. simpl in Hc1, Hc2.
    apply insert_and_commit_ok in Hic as (Hin & _).
    split; [exact Hin | congruence].
  - intros x w1 Hne Hg. apply Z.eqb_neq in Hne.
    rewrite (register_event_unfold _ _ _ Hne), Hg. reflexivity.
Qed.

(** The same request for the hackathon, once with a commit that fails and
    once with no failure. *)
Lemma register_event_failed_commit :
  fst (register_event 5 "alice" commit_fails_world) = Raise OperationalError /\
  _my_events_cache (snd (register_event 5 "alice" commit_fails_world))
  = _my_events_cache commit_fails_world /\
  fst (register_event 5 "alice" (set_env 1 [] commit_fails_world))
  = Ok (RedirectResponse "/my-events?user=alice" 302) /\
  registrations (db (snd (register_event 5 "alice" (set_env 1 [] commit_fails_world))))
  = [("alice", 7); ("alice", 5)] /\
  _my_events_cache (snd (register_event 5 "alice" (set_env 1 [] commit_fails_world)))
    !! "alice" = None.
Proof.
  pose proof (register_event_commits_then_invalidates 5 "alice" commit_fails_world)
    as (H1 & _ & H3 & _).
  assert (Hr : fst (register_event 5 "alice" commit_fails_world) = Raise OperationalError).
  { set (w1 := snd (get_db commit_fails_world)).
    set (w2 := snd (execute 0%nat (InsertRegistration "alice" 5) w1)).
    apply (H3 0%nat w1 [] w2 OperationalError (snd (commit 0%nat w2)));
      [discriminate | vm_compute; reflexivity ..]. }
  split; [exact Hr |]. split.
  { destruct (register_event 5 "alice" commit_fails_world) as [[r | x] w'];
      [discriminate Hr | apply H1]. }
  pose proof (register_event_commits_then_invalidates
                5 "alice" (set_env 1 [] commit_fails_world)) as (_ & _ & _ & H4 & _).
  set (v := set_env 1 [] commit_fails_world) in *.
  set (v1 := snd (get_db v)).
  set (v2 := snd (execute 0%nat (InsertRegistration "alice" 5) v1)).
  destruct (H4 0%nat v1 [] v2 (snd (commit 0%nat v2))) as (Heq & _);
    [discriminate | vm_compute; reflexivity ..|].
  rewrite Heq. vm_compute. repeat split.
Defined.

(** ** [register] *)

Lemma register_unfold u p w :
  register u p w =
  match get_db w with
  | (Raise x, w1) => (Raise x, w1)
  | (Ok c, w1) =>
      match insert_user_and_commit c u p w1 with
      | (Ok _, w2) => (Ok (RedirectResponse "/login" 302), snd (close c w2))
      | (Raise _, w2) => (Ok (HTMLResponse username_exists_message), snd (close c w2))
      end
  end.
Proof.
  unfold register, insert_user_and_commit. unfold bind at 1.
  destruct (get_db w) as [[c | x] w1]; [| reflexivity].
  unfold try_finally, try_except, bind, ret.
  destruct (execute c (InsertUser u p) w1) as [[rows | x] w2]; [| reflexivity].
  destruct (commit c w2) as [[[] | x] w3]; reflexivity.
Qed.

Lemma close_closes c w :
  ~ In c (open_conns (snd (close c w))) /\
  trace (snd (close c w)) = trace w ++ [EvClose c].
Proof.
  split; [| reflexivity]. simpl. intros Hin.
  apply List.filter_In in Hin as [_ Hne]. rewrite Nat.eqb_refl in Hne. discriminate.
Qed.

(** C10.  Once [get_db] has returned a handle [c], [register] never
    raises: whatever exception the insert or the commit raises, of whatever
    kind, the caller gets the "Username already exists" page, and gets the
    redirect to [/login] when both succeed.  On both paths the handle is
    closed, as the last thing the call does.  (An error of [get_db] itself
    is outside the [try] and reaches the caller.) *)
Theorem register_reports_every_failure_as_duplicate (u p : string) (w : World) :
  match get_db w with
  | (Raise x, w1) => register u p w = (Raise x, w1)
  | (Ok c, w1) =>
      fst (register u p w)
      = Ok (match fst (insert_user_and_commit c u p w1) with
            | Ok _ => RedirectResponse "/login" 302
            | Raise _ => HTMLResponse username_exists_message
            end) /\
      ~ In c (open_conns (snd (register u p w))) /\
      trace (snd (register u p w))
      = trace (snd (insert_user_and_commit c u p w1)) ++ [EvClose c]
  end.
Proof.
  rewrite register_unfold.
  destruct (get_db w) as [[c | x] w1]; [| reflexivity].
  destruct (insert_user_and_commit c u p w1) as [[[] | x] w2]; simpl fst; simpl snd;
    (split; [reflexivity | apply close_closes]).
Qed.

(** Two failures of different kinds, one message: alice is already a user
    (a uniqueness violation), and a commit that fails for bob (who is not). *)
Lemma register_failures_on_demo_store :
  fst (register "alice" "x" (fresh demo_tables))
  = Ok (HTMLResponse username_exists_message) /\
  fst (register "bob" "x" commit_fails_world)
  = Ok (HTMLResponse username_exists_message) /\
  fst (register "bob" "x" (fresh demo_tables)) = Ok (RedirectResponse "/login" 302) /\
  open_conns (snd (register "bob" "x" commit_fails_world)) = [].
Proof.
  pose proof (register_reports_every_failure_as_duplicate "alice" "x" (fresh demo_tables)) as H1.
  pose proof (register_reports_every_failure_as_duplicate "bob" "x" commit_fails_world) as H2.
  pose proof (register_reports_every_failure_as_duplicate "bob" "x" (fresh demo_tables)) as H3.
  vm_compute in H1. vm_compute in H2. vm_compute in H3. vm_compute.
  split; [exact (proj1 H1) |]. split; [exact (proj1 H2) |].
  split; [exact (proj1 H3) |]. reflexivity.
Defined.

(** ** [get_db]: the one-time tuning *)

Lemma tuning_runs_app tr1 tr2 :
  tuning_runs (tr1 ++ tr2) = (tuning_runs tr1 + tuning_runs tr2)%nat.
Proof. unfold tuning_runs. rewrite List.filter_app, length_app. reflexivity. Qed.

Lemma tuned_for_good_refl w : tuned_for_good w w.
Proof. intros H. split; [exact H | reflexivity]. Qed.

Lemma tuned_for_good_trans w1 w2 w3 :
  tuned_for_good w1 w2 -> tuned_for_good w2 w3 -> tuned_for_good w1 w3.
Proof.
  intros H12 H23 H1. destruct (H12 H1) as [H2 E12].
  destruct (H23 H2) as [H3 E23]. split; [exact H3 | congruence].
Qed.

Lemma db_step_tuned_for_good P w w' :
  (forall e, P e -> tuning_effect e = false) ->
  db_step P w w' -> tuned_for_good w w'.
Proof.
  intros Hq (Hf & _ & _ & _ & e & Ht & He) Hi. split; [congruence |].
  rewrite Ht, tuning_runs_app. unfold tuning_runs at 2. simpl.
  rewrite (Hq e He). simpl. apply Nat.add_0_r.
Qed.

Lemma tuned_connect : respects tuned_for_good connect.
Proof.
  intros w. eapply db_step_tuned_for_good; [| apply connect_step].
  intros e (c & ok & ->). reflexivity.
Qed.

Lemma tuned_execute c s : is_tuning s = false -> respects tuned_for_good (execute c s).
Proof.
  intros Hs w. eapply db_step_tuned_for_good; [| apply execute_step].
  intros e (ok & ->). exact Hs.
Qed.



(** With the flag set, [get_db] is [connect] followed by the busy-timeout
    pragma. *)
Lemma get_db_initialized w :
  _db_initialized w = true ->
  get_db w = (c <- connect ;; execute c PragmaBusyTimeout ;;; ret c) w.
Proof.
  intros Hi. unfold get_db, bind, gets, ret.
  pose proof (connect_step w) as (Hf & _).
  destruct (connect w) as [[c | x] w1]; [| reflexivity].
  simpl in Hf. rewrite Hf, Hi. reflexivity.
Qed.

Lemma tuned_get_db : respects tuned_for_good get_db.
Proof.
  intros w Hi. rewrite (get_db_initialized w Hi). revert Hi.
  apply (respects_bind tuned_for_good tuned_for_good_trans); [apply tuned_connect |].
  intros c. apply (respects_bind tuned_for_good tuned_for_good_trans).
  - apply tuned_execute. reflexivity.
  - intros _. apply (respects_ret tuned_for_good tuned_for_good_refl).
Qed.







(** ** The per-user cache: entries leave by invalidation only *)

Lemma user_kept_refl u w : user_kept u w w.
Proof. intros H. exact H. Qed.

Lemma user_kept_trans u w1 w2 w3 :
  user_kept u w1 w2 -> user_kept u w2 w3 -> user_kept u w1 w3.
Proof. unfold user_kept. auto. Qed.

Lemma same_caches_user_kept u w w' : same_caches w w' -> user_kept u w w'.
Proof. intros (_ & _ & Hm) H. rewrite Hm. exact H. Qed.

Lemma user_kept_run_ops ttl_events ttl_my u ops w :
  Forall (fun o => ~ invalidates u o) ops ->
  user_kept u w (run_ops ttl_events ttl_my ops w).
Proof.
  intros Hops.
  apply (respects_run_ops (user_kept u) (user_kept_refl u) (user_kept_trans u)
           ttl_events ttl_my (fun u' => u' <> u)).
  - intros c s _ w0. apply same_caches_user_kept, same_caches_execute.
  - intros c w0. apply same_caches_user_kept, same_caches_commit.
  - intros c w0. apply same_caches_user_kept, same_caches_close.
  - intros w0. apply same_caches_user_kept, same_caches_get_db.
  - intros ts data w0 H. exact H.
  - intros u' ts data w0 H. simpl. apply lookup_insert_is_Some'. right. exact H.
  - intros u' Hne w0 H. simpl. rewrite lookup_delete_ne; [exact H | exact Hne].
  - intros t sc w0 H. exact H.
  - intros t w0 H. exact H.
  - eapply Forall_impl; [exact Hops |].
    intros o Ho. destruct o; simpl in *; try exact I; exact Ho.
Qed.

Lemma Qle_bool_positive (t : Q) : (0 < t)%Q -> Qle_bool t 0 = false.
Proof.
  intros Hpos. destruct (Qle_bool t 0) eqn:E; [| reflexivity].
  apply Qle_bool_iff in E. lra.
Qed.

(** *** The cached reads with caching enabled, written out *)

Lemma get_my_events_cached_enabled ttl c u w :
  Qle_bool ttl 0 = false ->
  _get_my_events_cached ttl c u w =
  match _my_events_cache w !! u with
  | Some (ts, data) =>
      if Qlt_bool (float_sub (clock w) ts) ttl
      then (Ok data, w) else my_events_refill c u w
  | None => my_events_refill c u w
  end.
Proof.
  intros Hpos. unfold _get_my_events_cached, my_events_refill. rewrite Hpos.
  unfold bind, monotonic, gets, ret, store_my_events_cache, modify.
  destruct (_my_events_cache w !! u) as [[ts data] |].
  - destruct (Qlt_bool (float_sub (clock w) ts) ttl); [reflexivity |].
    rewrite execute_select_my_events. unfold succeeded.
    destruct (fault (next_outcome w)); reflexivity.
  - rewrite execute_select_my_events. unfold succeeded.
    destruct (fault (next_outcome w)); reflexivity.
Qed.

Lemma get_events_cached_enabled ttl c w :
  Qle_bool ttl 0 = false ->
  _get_events_cached ttl c w =
  if events_cache_fresh ttl (clock w) w
  then (Ok (default [] (_events_cache_data w)), w)
  else events_refill c w.
Proof.
  intros Hpos. unfold _get_events_cached, events_refill, events_cache_fresh.
  rewrite Hpos.
  unfold bind, monotonic, gets, ret, store_events_cache, modify.
  destruct (_events_cache_data w) as [data |].
  - destruct (Qlt_bool (float_sub (clock w) (_events_cache_ts w)) ttl); [reflexivity |].
    rewrite execute_select_events. unfold succeeded.
    destruct (fault (next_outcome w)); reflexivity.
  - rewrite execute_select_events. unfold succeeded.
    destruct (fault (next_outcome w)); reflexivity.
Qed.

(** A cached read of [u]'s registrations leaves [u]'s entry as it is (a
    hit, or a query that fails) or overwrites it with the reading of the
    clock taken at the start of the call and the rows just fetched. *)
Lemma get_my_events_cached_entry ttl c u w :
  _my_events_cache (snd (_get_my_events_cached ttl c u w)) !! u
  = _my_events_cache w !! u \/
  _my_events_cache (snd (_get_my_events_cached ttl c u w)) !! u
  = Some (clock w, my_events_rows (view c w) u).
Proof.
  destruct (Qle_bool ttl 0) eqn:Httl.
  - left. apply Qle_bool_iff in Httl.
    rewrite (get_my_events_cached_disabled _ _ _ _ Httl). unfold bind.
    rewrite execute_select_my_events.
    destruct (fault (next_outcome w)); reflexivity.
  - rewrite (get_my_events_cached_enabled _ _ _ _ Httl).
    assert (Hre : _my_events_cache (snd (my_events_refill c u w)) !! u
                  = _my_events_cache w !! u \/
                  _my_events_cache (snd (my_events_refill c u w)) !! u
                  = Some (clock w, my_events_rows (view c w) u)).
    { unfold my_events_refill.
      destruct (fault (next_outcome w)); [left; reflexivity |].
      right. simpl. apply lookup_insert_eq. }
    destruct (_my_events_cache w !! u) as [[ts data] |] eqn:Hl; [| exact Hre].
    destruct (Qlt_bool (float_sub (clock w) ts) ttl); [left; exact Hl | exact Hre].
Qed.

(** C8.  Through every sequence of operations that contains no request to
    invalidate [u] (no [_invalidate_my_events_cache u], directly or through
    [register_event] for [u]), an entry of [u] in the per-user mapping is
    still there at the end, however much time has passed; and a cached read
    for [u] leaves the entry in place or overwrites it. *)
Theorem entry_leaves_only_by_invalidation
    (ttl_events ttl_my : Q) (u : string) (ops : list op) (w : World) :
  Forall (fun o => ~ invalidates u o) ops ->
  is_Some (_my_events_cache w !! u) ->
  is_Some (_my_events_cache (run_ops ttl_events ttl_my ops w) !! u) /\
  forall c,
    _my_events_cache (snd (_get_my_events_cached ttl_my c u w)) !! u
    = _my_events_cache w !! u \/
    _my_events_cache (snd (_get_my_events_cached ttl_my c u w)) !! u
    = Some (clock w, my_events_rows (view c w) u).
Proof.
  intros Hops Hin. split.
  - exact (user_kept_run_ops ttl_events ttl_my u ops w Hops Hin).
  - intros c. apply get_my_events_cached_entry.
Qed.

(** An entry written at time 1 with a TTL of 2 seconds is still in the
    mapping a hundred seconds and several requests later. *)
Lemma stale_entry_stays_on_demo_store :
  is_Some (_my_events_cache
             (run_ops 2 2 [EnvSleep 100; ReqEvents "alice"; ReqRegisterEvent 5 "bob";
                           CallInvalidate "bob"; ReqLogin "alice" "pw"]
                      commit_fails_world) !! "alice").
Proof.
  apply (entry_leaves_only_by_invalidation 2 2 "alice").
  - repeat constructor; simpl; try tauto; discriminate.
  - vm_compute. eexists. reflexivity.
Defined.

(** ** The catalog cache *)

Lemma Qlt_bool_false_iff (a b : Q) : Qlt_bool a b = false <-> (b <= a)%Q.
Proof.
  unfold Qlt_bool. rewrite negb_false_iff. apply Qle_bool_iff.
Qed.

Lemma Qlt_bool_true_iff (a b : Q) : Qlt_bool a b = true <-> (a < b)%Q.
Proof.
  unfold Qlt_bool. rewrite negb_true_iff. split.
  - intros H. apply Qnot_le_lt. intros Hle. apply Qle_bool_iff in Hle. congruence.
  - intros H. destruct (Qle_bool b a) eqn:E; [| reflexivity].
    apply Qle_bool_iff in E. lra.
Qed.

Lemma catalog_queries_app tr1 tr2 :
  catalog_queries (tr1 ++ tr2) = (catalog_queries tr1 + catalog_queries tr2)%nat.
Proof. unfold catalog_queries. rewrite List.filter_app, length_app. reflexivity. Qed.

(** What a miss whose query completes leaves behind. *)
Lemma events_refill_ok c w rows w' :
  events_refill c w = (Ok rows, w') ->
  _events_cache_data w' = Some rows /\
  _events_cache_ts w' = clock w /\
  catalog_queries (trace w') = S (catalog_queries (trace w)).
Proof.
  unfold events_refill. destruct (fault (next_outcome w)); [discriminate |].
  intros H. injection H as <- <-. simpl.
  split; [reflexivity |]. split; [reflexivity |].
  rewrite !catalog_queries_app. unfold catalog_queries. simpl. lia.
Qed.

Lemma events_refill_queries c w :
  (catalog_queries (trace (snd (events_refill c w))) <= S (catalog_queries (trace w)))%nat.
Proof.
  unfold events_refill. destruct (fault (next_outcome w)); simpl;
    rewrite !catalog_queries_app; unfold catalog_queries; simpl; lia.
Qed.

(** A miss asks the store once, whether or not the query completes. *)
Lemma events_refill_asks_once c w :
  catalog_queries (trace (snd (events_refill c w))) = S (catalog_queries (trace w)).
Proof.
  unfold events_refill. destruct (fault (next_outcome w)); simpl;
    rewrite !catalog_queries_app; unfold catalog_queries; simpl; lia.
Qed.

(** The test under the lock, in terms of the slot. *)
Lemma events_cache_fresh_false ttl now w :
  events_cache_fresh ttl now w = false <->
  _events_cache_data w = None \/ (ttl <= float_sub now (_events_cache_ts w))%Q.
Proof.
  unfold events_cache_fresh. destruct (_events_cache_data w) as [data |].
  - rewrite Qlt_bool_false_iff. split; [intros H; right; exact H |].
    intros [H | H]; [discriminate H | exact H].
  - split; [intros _; left; reflexivity | reflexivity].
Qed.

(** The float subtraction rounds: the readings 100.1 and 3700.1 are less
    than 3600 apart as rationals, and exactly 3600.0 apart as floats.  An
    entry written at the first is served at the second by no TTL of an hour:
    the read queries the store. *)
Lemma rounded_difference_reaches_ttl :
  (float_round (37001 # 10) - float_round (1001 # 10) < 3600)%Q /\
  (float_sub (float_round (37001 # 10)) (float_round (1001 # 10)) == 3600)%Q /\
  _events_cache_ts rounding_world = float_round (1001 # 10) /\
  clock rounding_world = float_round (37001 # 10) /\
  catalog_queries (trace rounding_world) = 1%nat /\
  catalog_queries (trace (snd (_get_events_cached 3600 1%nat rounding_world))) = 2%nat.
Proof. vm_compute. repeat split. Qed.

(** C4, as stated, fails: the timestamp stored with the fresh data is not a
    reading taken when the entry is overwritten.  Here the entry is written
    at time 13 with timestamp 10, and with a TTL of 2 seconds it is stale
    the moment it is written: a read at that moment queries the store
    again. *)
Lemma stored_timestamp_is_not_the_time_of_the_overwrite :
  fst (_get_events_cached 2 0%nat slow_query_world)
  = Ok [[VInt 5; VText "Hackathon"; VInt 100]; [VInt 7; VText "Quiz"; VInt 50]] /\
  _events_cache_data (snd (_get_events_cached 2 0%nat slow_query_world))
  = Some [[VInt 5; VText "Hackathon"; VInt 100]; [VInt 7; VText "Quiz"; VInt 50]] /\
  (clock (snd (_get_events_cached 2 0%nat slow_query_world)) == 13)%Q /\
  (_events_cache_ts (snd (_get_events_cached 2 0%nat slow_query_world)) == 10)%Q /\
  ~ (_events_cache_ts (snd (_get_events_cached 2 0%nat slow_query_world))
     == clock (snd (_get_events_cached 2 0%nat slow_query_world)))%Q /\
  events_cache_fresh 2 (clock (snd (_get_events_cached 2 0%nat slow_query_world)))
                     (snd (_get_events_cached 2 0%nat slow_query_world)) = false /\
  catalog_queries
    (trace (snd (_get_events_cached 2 1%nat
                   (snd (_get_events_cached 2 0%nat slow_query_world))))) = 2%nat.
Proof. vm_compute. repeat split; discriminate. Qed.

(** C4, amended.  On every miss of [_get_events_cached] (TTL positive, slot
    empty or stale) whose store query completes, the call returns the rows
    just fetched, and the slot holds those rows together with the reading of
    the monotonic clock taken at the start of the call, before the lookup
    and the query.  Staleness is then judged against that stored timestamp,
    with the float subtraction: a later call of [_get_events_cached], at a
    reading [now], returns the stored rows without asking the store when
    [now - timestamp < TTL], and asks the store again when
    [now - timestamp >= TTL]. *)
Theorem catalog_miss_stores_rows_with_reading_at_call_start
    (ttl : Q) (c : conn) (w : World) :
  (0 < ttl)%Q ->
  _events_cache_data w = None \/
  (ttl <= float_sub (clock w) (_events_cache_ts w))%Q ->
  fault (next_outcome w) = None ->
  fst (_get_events_cached ttl c w) = Ok (map event_row (events (view c w))) /\
  _events_cache_data (snd (_get_events_cached ttl c w))
  = Some (map event_row (events (view c w))) /\
  _events_cache_ts (snd (_get_events_cached ttl c w)) = clock w /\
  trace (snd (_get_events_cached ttl c w))
  = trace w ++ [EvExecute c SelectEvents true;
                EvCatalogStore (clock w) (map event_row (events (view c w)))] /\
  forall (c2 : conn) (now : Q) (sc : list outcome),
    ((float_sub now (clock w) < ttl)%Q ->
     _get_events_cached ttl c2 (set_env now sc (snd (_get_events_cached ttl c w)))
     = (Ok (map event_row (events (view c w))),
        set_env now sc (snd (_get_events_cached ttl c w)))) /\
    ((ttl <= float_sub now (clock w))%Q ->
     catalog_queries
       (trace (snd (_get_events_cached ttl c2
                      (set_env now sc (snd (_get_events_cached ttl c w))))))
     = S (catalog_queries (trace (snd (_get_events_cached ttl c w))))).
Proof.
  intros Hpos Hmiss Hok.
  pose proof (Qle_bool_positive _ Hpos) as Hen.
  apply (events_cache_fresh_false ttl (clock w) w) in Hmiss.
  rewrite (get_events_cached_enabled _ _ _ Hen).
  rewrite Hmiss. unfold events_refill at 1 2 3 4. rewrite Hok. simpl fst. simpl snd.
  split; [reflexivity |]. split; [reflexivity |]. split; [reflexivity |].
  split; [simpl; rewrite <- app_assoc; reflexivity |].
  intros c2 now sc.
  unfold events_refill. rewrite Hok. simpl snd.
  rewrite (get_events_cached_enabled ttl c2 _ Hen).
  unfold events_cache_fresh at 1 2. simpl _events_cache_data. simpl _events_cache_ts.
  simpl clock. split.
  - intros Hnear. apply Qlt_bool_true_iff in Hnear. rewrite Hnear. reflexivity.
  - intros Hfar. apply Qlt_bool_false_iff in Hfar. rewrite Hfar.
    rewrite events_refill_asks_once. reflexivity.
Qed.

(** The slot written with timestamp 10: a read at 11.5 is served from it,
    a read at 12 (the boundary) asks the store. *)
Lemma catalog_miss_on_slow_query :
  _events_cache_ts (snd (_get_events_cached 2 0%nat slow_query_world)) = 10%Q /\
  fst (_get_events_cached 2 1%nat
         (set_env (23 # 2) [] (snd (_get_events_cached 2 0%nat slow_query_world))))
  = Ok [[VInt 5; VText "Hackathon"; VInt 100]; [VInt 7; VText "Quiz"; VInt 50]] /\
  catalog_queries
    (trace (snd (_get_events_cached 2 1%nat
                   (set_env 12 [] (snd (_get_events_cached 2 0%nat slow_query_world))))))
  = 2%nat.
Proof.
  assert (Hpos : (0 < 2)%Q) by reflexivity.
  destruct (catalog_miss_stores_rows_with_reading_at_call_start
              2 0%nat slow_query_world Hpos (or_introl eq_refl) eq_refl)
    as (_ & _ & Hts & _ & Hlater).
  split; [exact Hts |]. split.
  - destruct (Hlater 1%nat (23 # 2) []) as [Hhit _].
    rewrite Hhit; [reflexivity | vm_compute; reflexivity].
  - destruct (Hlater 1%nat 12%Q []) as [_ Hmiss].
    rewrite Hmiss; [vm_compute; reflexivity | vm_compute; discriminate].
Defined.

(** C3, as stated, fails: two calls one second apart, with a TTL of two
    seconds and an unchanged store between them, return different data when
    the entry that serves the first expires before the second. *)
Lemma catalog_reads_within_ttl_can_differ :
  (clock late_catalog_world == 3 # 2)%Q /\
  fst (_get_events_cached 2 0%nat late_catalog_world) = Ok [] /\
  db (snd (_get_events_cached 2 0%nat late_catalog_world)) = db late_catalog_world /\
  ((5 # 2) - clock late_catalog_world < 2)%Q /\
  (float_sub (5 # 2) (clock late_catalog_world) < 2)%Q /\
  fst (_get_events_cached 2 0%nat
         (set_env (5 # 2) [] (snd (_get_events_cached 2 0%nat late_catalog_world))))
  = Ok [[VInt 5; VText "Hackathon"; VInt 100]; [VInt 7; VText "Quiz"; VInt 50]] /\
  fst (_get_events_cached 2 0%nat
         (set_env (5 # 2) [] (snd (_get_events_cached 2 0%nat late_catalog_world))))
  <> fst (_get_events_cached 2 0%nat late_catalog_world).
Proof. vm_compute. repeat split; discriminate. Qed.

(** C3, amended.  For every positive TTL, take two sequential calls of
    [_get_events_cached] that both return, the second after time has
    passed but nothing else has changed, with clock readings less than TTL
    apart as the code measures it (the float difference of the second
    reading and the first).  The store is queried at most once across the
    two calls.  When the first call is a miss (it queried the store), the
    second is a hit: it makes no query and changes nothing.  Whenever the
    second call is a hit, the two calls return identical data. *)
Theorem catalog_reads_within_ttl
    (ttl : Q) (c1 c2 : conn) (w : World) (t : Q) (sc : list outcome)
    (r1 r2 : list tuple) :
  (0 < ttl)%Q ->
  (float_sub t (clock w) < ttl)%Q ->
  fst (_get_events_cached ttl c1 w) = Ok r1 ->
  fst (_get_events_cached ttl c2 (set_env t sc (snd (_get_events_cached ttl c1 w))))
  = Ok r2 ->
  (catalog_queries
     (trace (snd (_get_events_cached ttl c2
                    (set_env t sc (snd (_get_events_cached ttl c1 w))))))
   <= catalog_queries (trace w) + 1)%nat /\
  (catalog_queries (trace (snd (_get_events_cached ttl c1 w)))
   = S (catalog_queries (trace w)) ->
   r2 = r1 /\
   snd (_get_events_cached ttl c2 (set_env t sc (snd (_get_events_cached ttl c1 w))))
   = set_env t sc (snd (_get_events_cached ttl c1 w))) /\
  (catalog_queries
     (trace (snd (_get_events_cached ttl c2
                    (set_env t sc (snd (_get_events_cached ttl c1 w))))))
   = catalog_queries (trace (snd (_get_events_cached ttl c1 w))) ->
   r2 = r1).
Proof.
  intros Hpos Hnear.
  pose proof (Qle_bool_positive _ Hpos) as Hen.
  rewrite (get_events_cached_enabled ttl c1 w Hen).
  destruct (events_cache_fresh ttl (clock w) w) eqn:Hfresh1.
  - (* the first call is a hit *)
    simpl. intros H1. injection H1 as H1.
    rewrite (get_events_cached_enabled ttl c2 _ Hen).
    change (events_cache_fresh ttl (clock (set_env t sc w)) (set_env t sc w))
      with (events_cache_fresh ttl t w).
    destruct (events_cache_fresh ttl t w) eqn:Hfresh2.
    + simpl. intros H2. injection H2 as H2.
      split; [lia |]. split; [intros Habs; lia |]. intros _. congruence.
    + intros _. pose proof (events_refill_asks_once c2 (set_env t sc w)) as Hq.
      simpl trace in Hq at 2. split; [lia |].
      split; [intros Habs; lia | intros Habs; lia].
  - (* the first call is a miss *)
    destruct (events_refill c1 w) as [[rows | x] w1] eqn:Hre; simpl;
      [| discriminate].
    intros H1. injection H1 as ->.
    apply events_refill_ok in Hre as (Hdata & Hts & Hq).
    rewrite (get_events_cached_enabled ttl c2 _ Hen).
    assert (Hfresh2 : events_cache_fresh ttl (clock (set_env t sc w1)) (set_env t sc w1)
                      = true).
    { unfold events_cache_fresh. simpl. rewrite Hdata, Hts.
      apply Qlt_bool_true_iff. exact Hnear. }
    rewrite Hfresh2. simpl. rewrite Hdata. simpl.
    intros H2. injection H2 as <-.
    split; [lia |]. split; [intros _; split; reflexivity | intros _; reflexivity].
Qed.

Lemma catalog_reads_within_ttl_on_demo_store :
  (catalog_queries
     (trace (snd (_get_events_cached 2 1%nat
                    (set_env 1 [] (snd (_get_events_cached 2 0%nat (fresh demo_tables)))))))
   <= 0 + 1)%nat /\
  fst (_get_events_cached 2 1%nat
         (set_env 1 [] (snd (_get_events_cached 2 0%nat (fresh demo_tables)))))
  = fst (_get_events_cached 2 0%nat (fresh demo_tables)).
Proof.
  assert (Hpos : (0 < 2)%Q) by reflexivity.
  assert (Hnear : (float_sub 1 (clock (fresh demo_tables)) < 2)%Q)
    by (vm_compute; reflexivity).
  destruct (catalog_reads_within_ttl 2 0%nat 1%nat (fresh demo_tables) 1 []
              [[VInt 5; VText "Hackathon"; VInt 100]; [VInt 7; VText "Quiz"; VInt 50]]
              [[VInt 5; VText "Hackathon"; VInt 100]; [VInt 7; VText "Quiz"; VInt 50]]
              Hpos Hnear)
    as (Hq & Hmiss & _); [vm_compute; reflexivity | vm_compute; reflexivity |].
  split; [exact Hq |].
  destruct Hmiss as [Hsame _]; [vm_compute; reflexivity |].
  vm_compute. reflexivity.
Defined.

(** ** A registration is seen by the next read *)

Lemma my_events_rows_In (t : Tables) (u : string) (e : Z) (name : string) (fee : Z) :
  In (u, e) (registrations t) ->
  In (e, name, fee) (events t) ->
  In [VText name; VInt fee] (my_events_rows t u).
Proof.
  intros Hr He. unfold my_events_rows. apply in_flat_map.
  exists (u, e). split; [exact Hr |]. simpl. rewrite String.eqb_refl.
  apply in_flat_map. exists (e, name, fee). split; [exact He |].
  rewrite Z.eqb_refl. left. reflexivity.
Qed.

(** What a successful [register_event] leaves behind: the row committed,
    the catalog as it was, and no entry for the user in the per-user
    mapping. *)
Lemma register_event_ok e u w r w1 :
  register_event e u w = (Ok r, w1) ->
  In (u, e) (registrations (db w1)) /\
  _my_events_cache w1 !! u = None.
Proof.
  destruct (Z.eqb e 404) eqn:He.
  { apply Z.eqb_eq in He. subst e. discriminate. }
  rewrite (register_event_unfold _ _ _ He).
  destruct (get_db w) as [[c | x] w0]; [| discriminate].
  destruct (insert_and_commit c u e w0) as [[[] | x] w2] eqn:Hic; [| discriminate].
  intros H. injection H as _ <-.
  apply insert_and_commit_ok in Hic as (Hin & _).
  split; [exact Hin | apply lookup_delete_eq].
Qed.

(** C1, as stated, fails for an event id that no event carries:
    [register_event] does not check the id, the row is committed, and the
    join of the next read returns nothing for it. *)
Lemma registration_for_missing_event_is_not_listed :
  fst (register_event 5 "alice" empty_catalog_world)
  = Ok (RedirectResponse "/my-events?user=alice" 302) /\
  registrations (db (snd (register_event 5 "alice" empty_catalog_world)))
  = [("alice", 5)] /\
  fst (_get_my_events_cached 60 1%nat "alice"
         (snd (register_event 5 "alice" empty_catalog_world)))
  = Ok [] /\
  fst (_get_my_events_cached 0 1%nat "alice"
         (snd (register_event 5 "alice" empty_catalog_world)))
  = Ok [].
Proof. vm_compute. repeat split. Qed.

(** C1, amended.  For every username [u] and event id [e], after
    [register_event e u] has returned, and whatever time has passed since,
    the next [_get_my_events_cached] for [u] is served by the store and not
    by the cache, for every TTL: it returns the rows of the join over a
    store that holds the registration [(u, e)] (or propagates the error of
    the query).  The rows include the name and fee of every event whose id
    is [e]; when no event has that id the registration contributes no
    row. *)
Theorem read_after_register_event_sees_registration
    (ttl_my : Q) (e : Z) (u : string) (w : World) (r : response) (w1 : World)
    (t : Q) (sc : list outcome) (c : conn) :
  register_event e u w = (Ok r, w1) ->
  In (u, e) (registrations (view c (set_env t sc w1))) /\
  fst (_get_my_events_cached ttl_my c u (set_env t sc w1))
  = match fault (next_outcome (set_env t sc w1)) with
    | None => Ok (my_events_rows (view c (set_env t sc w1)) u)
    | Some x => Raise x
    end /\
  forall name fee,
    In (e, name, fee) (events (db w1)) ->
    In [VText name; VInt fee] (my_events_rows (view c (set_env t sc w1)) u).
Proof.
  intros Hreg. apply register_event_ok in Hreg as (Hin & Hnone).
  assert (Hview : In (u, e) (registrations (view c (set_env t sc w1)))).
  { apply view_registrations. exact Hin. }
  split; [exact Hview |]. split.
  - destruct (Qle_bool ttl_my 0) eqn:Httl.
    + apply Qle_bool_iff in Httl.
      rewrite (get_my_events_cached_disabled _ _ _ _ Httl). unfold bind.
      rewrite execute_select_my_events.
      destruct (fault (next_outcome (set_env t sc w1))); reflexivity.
    + rewrite (get_my_events_cached_enabled _ _ _ _ Httl).
      change (_my_events_cache (set_env t sc w1)) with (_my_events_cache w1).
      rewrite Hnone. unfold my_events_refill.
      destruct (fault (next_outcome (set_env t sc w1))); reflexivity.
  - intros name fee Hev. apply (my_events_rows_In _ u e); [exact Hview |].
    rewrite view_events. exact Hev.
Qed.

(** Alice's entry is cached and fresh (TTL of an hour) when she registers
    for the hackathon; the next read lists the hackathon all the same. *)
Lemma read_after_register_event_on_demo_store :
  fst (_get_my_events_cached 3600 1%nat "alice"
         (set_env 2 [] (snd (register_event 5 "alice"
                               (set_env 1 [] commit_fails_world)))))
  = Ok [[VText "Quiz"; VInt 50]; [VText "Hackathon"; VInt 100]].
Proof.
  destruct (read_after_register_event_sees_registration
              3600 5 "alice" (set_env 1 [] commit_fails_world)
              (RedirectResponse "/my-events?user=alice" 302)
              (snd (register_event 5 "alice" (set_env 1 [] commit_fails_world)))
              2 [] 1%nat)
    as (_ & Hrows & _); [vm_compute; reflexivity |].
  vm_compute in Hrows. vm_compute. exact Hrows.
Defined.

(** * Further properties of the handlers *)

(** ** What the sqlite calls do to the store and to the handles *)

Lemma execute_read_only c s w :
  is_write s = false ->
  snd (execute c s w)
  = log (EvExecute c s (succeeded (next_outcome w))) (elapse w).
Proof.
  intros Hs. unfold execute, succeeded.
  destruct (fault (next_outcome w)); [reflexivity |].
  destruct s; try discriminate Hs; reflexivity.
Qed.

Lemma execute_db_conns c s w :
  db (snd (execute c s w)) = db w /\
  open_conns (snd (execute c s w)) = open_conns w.
Proof.
  unfold execute. destruct (fault (next_outcome w)); simpl; [split; reflexivity |].
  destruct (run_stmt c s (elapse w)) as [x | [rows w2]] eqn:Hs; simpl;
    [split; reflexivity |].
  apply run_stmt_pending in Hs as [f ->]. split; reflexivity.
Qed.

(** ** [get_db] *)

(** What a [get_db] that returns has done: the handle is new and open, the
    tuning flag is set, the busy timeout was set on the handle as the last
    step, and neither the store nor the caches were touched. *)
Lemma get_db_ok w c w' :
  get_db w = (Ok c, w') ->
  c = next_conn w /\
  open_conns w' = c :: open_conns w /\
  _db_initialized w' = true /\
  db w' = db w /\ pending w' = pending w /\
  exists pre,
    trace w' = trace w ++ pre ++ [EvExecute c PragmaBusyTimeout true].
Proof.
  unfold get_db, _init_db_settings, bind, gets, ret, modify, connect, execute.
  destruct (fault (next_outcome w)); [discriminate |]. cbn.
  destruct (_db_initialized w) eqn:Hi; cbn; repeat (rewrite Hi; cbn).
  - match goal with
    | |- context [match fault (next_outcome ?W) with _ => _ end] =>
        destruct (fault (next_outcome W)); [discriminate |]
    end.
    cbn. intros H. injection H as <- <-. cbn. rewrite Hi.
    repeat split. exists [EvConnect (next_conn w) true].
    rewrite <- !app_assoc. reflexivity.
  - repeat match goal with
    | |- context [match fault (next_outcome ?W) with _ => _ end] =>
        destruct (fault (next_outcome W)); cbn; [discriminate |]
    end.
    intros H. injection H as <- <-. cbn.
    repeat split. eexists [_; _; _; _].
    rewrite <- !app_assoc. reflexivity.
Qed.

(** Whether or not it returns, [get_db] leaves the store alone. *)
Lemma get_db_store w :
  db (snd (get_db w)) = db w /\ pending (snd (get_db w)) = pending w.
Proof.
  unfold get_db, _init_db_settings, bind, gets, ret, modify, connect, execute.
  destruct (fault (next_outcome w)); cbn; [split; reflexivity |].
  destruct (_db_initialized w) eqn:Hi; cbn; repeat (rewrite Hi; cbn);
    repeat match goal with
    | |- context [match fault (next_outcome ?W) with _ => _ end] =>
        destruct (fault (next_outcome W)); cbn; [split; reflexivity |]
    end; split; reflexivity.
Qed.

(** ** Every request closes the handle it acquired *)

Lemma conns_same_refl w : conns_same w w.
Proof. reflexivity. Qed.

Lemma conns_same_trans w1 w2 w3 :
  conns_same w1 w2 -> conns_same w2 w3 -> conns_same w1 w3.
Proof. unfold conns_same. congruence. Qed.

Lemma conns_same_execute c s : respects conns_same (execute c s).
Proof. intros w. apply execute_db_conns. Qed.

Lemma conns_same_commit c : respects conns_same (commit c).
Proof. intros w. unfold commit. destruct (fault (next_outcome w)); reflexivity. Qed.

Lemma conns_same_get_events_cached ttl c : respects conns_same (_get_events_cached ttl c).
Proof.
  apply respects_get_events_cached.
  - apply conns_same_refl.
  - apply conns_same_trans.
  - intros c' s _. apply conns_same_execute.
  - intros ts data w. reflexivity.
Qed.

Lemma conns_same_get_my_events_cached ttl c u :
  respects conns_same (_get_my_events_cached ttl c u).
Proof.
  apply respects_get_my_events_cached.
  - apply conns_same_refl.
  - apply conns_same_trans.
  - intros c' s _. apply conns_same_execute.
  - intros u' ts data w. reflexivity.
Qed.

(** The shape of every handler: acquire, run a body under [try ...
    finally: db.close()], continue without the handle. *)
Lemma handler_closes {A B} (body : conn -> M A) (k : A -> M B) w c w1 :
  get_db w = (Ok c, w1) ->
  respects conns_same (body c) ->
  (forall a, respects conns_same (k a)) ->
  open_conns (snd ((db <- get_db ;; a <- try_finally (body db) (close db) ;; k a) w))
  = without_handle c (open_conns w1).
Proof.
  intros Hg Hbody Hk. unfold bind at 1. rewrite Hg.
  unfold bind, try_finally. specialize (Hbody w1).
  destruct (body c w1) as [[a | x] w2]; simpl in Hbody.
  - change (close c w2) with (@Ok unit tt, snd (close c w2)). cbv iota.
    specialize (Hk a (snd (close c w2))).
    destruct (k a (snd (close c w2))) as [r w3]. simpl in Hk |- *.
    rewrite Hk. simpl. unfold without_handle. rewrite Hbody. reflexivity.
  - simpl. unfold without_handle. rewrite Hbody. reflexivity.
Qed.

(** X2.  Every request that acquires a storage handle has closed it when it
    ends, whether it returns or raises, and leaves every other handle as
    it was: if its [get_db] returns the handle [c], the handles open
    afterwards are those that were open when [get_db] returned, without
    [c]. *)
Theorem requests_close_their_handle
    (ttl_events ttl_my : Q) (o : op) (w : World) (c : conn) (w1 : World) :
  acquires o = true ->
  get_db w = (Ok c, w1) ->
  open_conns (run_op ttl_events ttl_my o w) = without_handle c (open_conns w1) /\
  ~ In c (open_conns (run_op ttl_events ttl_my o w)).
Proof.
  intros Ha Hg.
  assert (Hret : forall A (a : A), respects conns_same (ret a))
    by (intros A a w0; reflexivity).
  assert (Hbind : forall A B (m : M A) (k : A -> M B),
             respects conns_same m -> (forall a, respects conns_same (k a)) ->
             respects conns_same (bind m k))
    by (intros A B; apply respects_bind, conns_same_trans).
  assert (Heq : open_conns (run_op ttl_events ttl_my o w)
                = without_handle c (open_conns w1)).
  { destruct o; try discriminate Ha; simpl; unfold exec.
    - (* startup *)
      unfold startup, bind at 1. rewrite Hg. unfold try_finally.
      match goal with |- context [?body w1] =>
        match body with bind _ _ =>
          assert (Hb : respects conns_same body)
            by (repeat (apply Hbind; [apply conns_same_execute | intros _]);
                apply conns_same_commit);
          specialize (Hb w1); destruct (body w1) as [r w2]
        end
      end.
      simpl in *. unfold without_handle. rewrite Hb. reflexivity.
    - (* register *)
      apply (handler_closes
               (fun db => try_except
                            (execute db (InsertUser username password) ;;;
                             commit db ;;; ret None)
                            (ret (Some (HTMLResponse username_exists_message))))
               (fun early => match early with
                             | Some r => ret r
                             | None => ret (RedirectResponse "/login" 302)
                             end)); [exact Hg | |].
      + apply respects_try_except; [apply conns_same_trans | | apply Hret].
        apply Hbind; [apply conns_same_execute | intros _].
        apply Hbind; [apply conns_same_commit | intros _; apply Hret].
      + intros [r |]; apply Hret.
    - (* login *)
      apply (handler_closes
               (fun db => execute db (SelectUser username password))
               (fun user => match user with
                            | [] => ret (TemplateResponse "login.html" [] "")
                            | _ :: _ =>
                                ret (RedirectResponse ("/events?user=" ++ username) 302)
                            end)); [exact Hg | apply conns_same_execute |].
      intros [| x l]; apply Hret.
    - (* events *)
      apply (handler_closes
               (fun db => _get_events_cached ttl_events db)
               (fun rows => ret (TemplateResponse "events.html" rows user)));
        [exact Hg | apply conns_same_get_events_cached | intros a; apply Hret].
    - (* register_event *)
      simpl in Ha. apply negb_true_iff in Ha.
      unfold register_event. rewrite Ha. unfold bind at 1. unfold ret at 1.
      apply (handler_closes
               (fun db => execute db (InsertRegistration user event_id) ;;; commit db)
               (fun _ => _invalidate_my_events_cache user ;;;
                         ret (RedirectResponse ("/my-events?user=" ++ user) 302)));
        [exact Hg | |].
      + apply Hbind; [apply conns_same_execute | intros _; apply conns_same_commit].
      + intros _. apply Hbind; [intros w0; reflexivity | intros _; apply Hret].
    - (* my_events *)
      apply (handler_closes
               (fun db => _get_my_events_cached ttl_my db user)
               (fun rows => ret (TemplateResponse "my_events.html" rows user)));
        [exact Hg | apply conns_same_get_my_events_cached | intros a; apply Hret]. }
  split; [exact Heq |]. rewrite Heq. unfold without_handle. intros Hin.
  apply List.filter_In in Hin as [_ Hne]. rewrite Nat.eqb_refl in Hne. discriminate.
Qed.

(** A failed login on a fresh process: the handle 0 that it acquired is
    closed when it ends. *)
Lemma login_closes_handle_on_demo_store :
  open_conns (run_op 2 0 (ReqLogin "alice" "wrong") (fresh demo_tables)) = [] /\
  ~ In 0%nat (open_conns (run_op 2 0 (ReqLogin "alice" "wrong") (fresh demo_tables))).
Proof.
  apply (requests_close_their_handle
           2 0 (ReqLogin "alice" "wrong") (fresh demo_tables) 0%nat
           (snd (get_db (fresh demo_tables)))).
  - reflexivity.
  - vm_compute. reflexivity.
Defined.

(** ** Relations respected by some of the operations only *)

Section Guarded.

Variable R : World -> World -> Prop.
Hypothesis R_refl : forall w, R w w.
Hypothesis R_trans : forall w1 w2 w3, R w1 w2 -> R w2 w3 -> R w1 w3.
Variables ttl_events ttl_my : Q.
Variables gw gc : Prop.
Variable gu : string -> Prop.
Variable gs : Prop.
Hypothesis R_execute_ro : forall c s, is_write s = false -> respects R (execute c s).
Hypothesis R_execute_w : gw -> forall c s, respects R (execute c s).
Hypothesis R_commit : forall c, respects R (commit c).
Hypothesis R_close : forall c, respects R (close c).
Hypothesis R_get_db : respects R get_db.
Hypothesis R_store_events : gc -> forall ts data, respects R (store_events_cache ts data).
Hypothesis R_store_my :
  forall u, gu u -> forall ts data, respects R (store_my_events_cache u ts data).
Hypothesis R_invalidate : forall u, gu u -> respects R (_invalidate_my_events_cache u).
Hypothesis R_env : forall t sc w, R w (set_env t sc w).
Hypothesis R_store : gs -> forall t w, R w (set_db (fun _ => t) w).

Local Hint Resolve respects_ret respects_raise respects_gets respects_bind
  respects_try_finally respects_try_except respects_if
  R_execute_ro R_commit R_close R_get_db : core.

Lemma guarded_startup : respects R startup.
Proof. unfold startup. auto 20. Qed.

Lemma guarded_login u p : respects R (login u p).
Proof.
  unfold login. apply respects_bind; [auto | auto | intros c].
  apply respects_bind; [auto | auto | intros [| x l]; auto].
Qed.

Lemma guarded_register u p : gw -> respects R (register u p).
Proof.
  intros Hw. pose proof (R_execute_w Hw) as Hex.
  unfold register. apply respects_bind; [auto | auto | intros c].
  apply respects_bind; [auto | auto 10 | intros [r |]; auto].
Qed.

Lemma guarded_register_event e u : gw -> gu u -> respects R (register_event e u).
Proof.
  intros Hw Hu. pose proof (R_execute_w Hw) as Hex.
  pose proof (R_invalidate u Hu) as Hinv.
  unfold register_event. auto 20.
Qed.

Lemma guarded_get_events_cached c : gc -> respects R (_get_events_cached ttl_events c).
Proof.
  intros Hc. pose proof (R_store_events Hc) as Hst.
  unfold _get_events_cached. apply respects_if; [auto |].
  apply respects_bind; [auto | unfold monotonic; auto | intros now].
  apply respects_bind; [auto | auto | intros [data |]; auto 10].
Qed.

Lemma guarded_get_my_events_cached c u :
  gu u -> respects R (_get_my_events_cached ttl_my c u).
Proof.
  intros Hu. pose proof (R_store_my u Hu) as Hst.
  unfold _get_my_events_cached. apply respects_if; [auto |].
  apply respects_bind; [auto | unfold monotonic; auto | intros now].
  apply respects_bind; [auto | auto | intros [data |]; auto 10].
Qed.

Lemma guarded_events_page u : gc -> respects R (events_page ttl_events u).
Proof.
  intros Hc. pose proof (fun c => guarded_get_events_cached c Hc).
  unfold events_page. auto 10.
Qed.

Lemma guarded_my_events u : gu u -> respects R (my_events ttl_my u).
Proof.
  intros Hu. pose proof (fun c => guarded_get_my_events_cached c u Hu).
  unfold my_events. auto 10.
Qed.

Lemma guarded_run_op o w :
  op_guard gw gc gu gs o -> R w (run_op ttl_events ttl_my o w).
Proof.
  destruct o; simpl; intros Ho; unfold exec.
  - apply guarded_startup.
  - apply guarded_register; exact Ho.
  - apply guarded_login.
  - apply guarded_events_page; exact Ho.
  - apply guarded_register_event; apply Ho.
  - apply guarded_my_events; exact Ho.
  - apply R_get_db.
  - apply R_close.
  - apply guarded_get_events_cached; exact Ho.
  - apply guarded_get_my_events_cached; exact Ho.
  - apply R_invalidate; exact Ho.
  - apply R_env.
  - apply R_env.
  - apply R_store; exact Ho.
Qed.

Lemma guarded_run_ops ops w :
  Forall (op_guard gw gc gu gs) ops -> R w (run_ops ttl_events ttl_my ops w).
Proof.
  unfold run_ops. revert w.
  induction ops as [| o ops IH]; intros w Hall; simpl; [apply R_refl |].
  inversion Hall as [| ? ? Ho Hops]; subst.
  eapply R_trans; [apply guarded_run_op; exact Ho | apply IH; exact Hops].
Qed.

End Guarded.

(** ** No request writes the events table *)

Lemma events_same_execute c s : respects events_same (execute c s).
Proof. intros w. unfold events_same. destruct (execute_db_conns c s w) as [-> _]. reflexivity. Qed.

Lemma events_same_commit c : respects events_same (commit c).
Proof.
  intros w. unfold events_same, commit.
  destruct (fault (next_outcome w)); simpl; [reflexivity |].
  rewrite view_events. reflexivity.
Qed.

Lemma events_same_get_db : respects events_same get_db.
Proof. intros w. unfold events_same. destruct (get_db_store w) as [-> _]. reflexivity. Qed.

(** X3.  Through every sequence of operations of the process (requests,
    direct calls of the caching layer, time passing), the events table is
    what it was: only a change from outside the process alters the
    catalog. *)
Theorem no_operation_writes_events
    (ttl_events ttl_my : Q) (ops : list op) (w : World) :
  Forall (fun o => ~ outside_change o) ops ->
  events (db (run_ops ttl_events ttl_my ops w)) = events (db w).
Proof.
  intros Hops.
  apply (guarded_run_ops events_same (fun w0 => eq_refl)
           (fun w1 w2 w3 H12 H23 => eq_trans H23 H12)
           ttl_events ttl_my True True (fun _ => True) False).
  - intros c s _. apply events_same_execute.
  - intros _ c s. apply events_same_execute.
  - apply events_same_commit.
  - intros c w0. reflexivity.
  - apply events_same_get_db.
  - intros _ ts data w0. reflexivity.
  - intros u _ ts data w0. reflexivity.
  - intros u _ w0. reflexivity.
  - intros t sc w0. reflexivity.
  - intros [].
  - eapply Forall_impl; [exact Hops |].
    intros o Ho. destruct o; simpl in *; auto.
Qed.

Lemma no_operation_writes_events_on_demo_store :
  events (db (run_ops 2 2 [ReqRegister "bob" "pw"; ReqRegisterEvent 5 "bob";
                           ReqEvents "bob"; ReqMyEvents "bob"; ReqStartup]
                      (fresh demo_tables)))
  = [(5, "Hackathon", 100); (7, "Quiz", 50)].
Proof.
  apply (no_operation_writes_events 2 2).
  repeat constructor; simpl; tauto.
Defined.

(** ** The catalog slot between two catalog reads *)

Lemma slot_same_refl w : slot_same w w.
Proof. split; reflexivity. Qed.

Lemma slot_same_trans w1 w2 w3 : slot_same w1 w2 -> slot_same w2 w3 -> slot_same w1 w3.
Proof. unfold slot_same. intros [-> ->] [-> ->]. split; reflexivity. Qed.

Lemma same_caches_slot_same w w' : same_caches w w' -> slot_same w w'.
Proof. intros (Hts & Hd & _). split; assumption. Qed.

Lemma slot_same_run_ops ttl_events ttl_my ops w :
  Forall (fun o => ~ reads_catalog o) ops ->
  slot_same w (run_ops ttl_events ttl_my ops w).
Proof.
  intros Hops.
  apply (guarded_run_ops slot_same slot_same_refl slot_same_trans
           ttl_events ttl_my True False (fun _ => True) True).
  - intros c s _ w0. apply same_caches_slot_same, same_caches_execute.
  - intros _ c s w0. apply same_caches_slot_same, same_caches_execute.
  - intros c w0. apply same_caches_slot_same, same_caches_commit.
  - intros c w0. apply same_caches_slot_same, same_caches_close.
  - intros w0. apply same_caches_slot_same, same_caches_get_db.
  - intros [].
  - intros u _ ts data w0. split; reflexivity.
  - intros u _ w0. split; reflexivity.
  - intros t sc w0. split; reflexivity.
  - intros _ t w0. split; reflexivity.
  - eapply Forall_impl; [exact Hops |].
    intros o Ho. destruct o; simpl in *; auto.
Qed.

(** X4.  The catalog slot has no invalidation: once it holds rows, no
    operation other than a catalog read changes it, whatever happens to the
    store.  So after any such operations a catalog read at a clock reading
    whose float difference from the stored timestamp is less than TTL
    returns the stored rows without a store query (the world is unchanged),
    and a read at a float difference of TTL or more queries the store. *)
Theorem catalog_slot_survives_everything_but_reads
    (ttl ttl_my : Q) (c : conn) (ops : list op) (w : World) (rows : list tuple) :
  (0 < ttl)%Q ->
  _events_cache_data w = Some rows ->
  Forall (fun o => ~ reads_catalog o) ops ->
  slot_same w (run_ops ttl ttl_my ops w) /\
  ((float_sub (clock (run_ops ttl ttl_my ops w)) (_events_cache_ts w) < ttl)%Q ->
   _get_events_cached ttl c (run_ops ttl ttl_my ops w)
   = (Ok rows, run_ops ttl ttl_my ops w)) /\
  ((ttl <= float_sub (clock (run_ops ttl ttl_my ops w)) (_events_cache_ts w))%Q ->
   fst (_get_events_cached ttl c (run_ops ttl ttl_my ops w))
   = match fault (next_outcome (run_ops ttl ttl_my ops w)) with
     | None => Ok (map event_row (events (view c (run_ops ttl ttl_my ops w))))
     | Some x => Raise x
     end /\
   catalog_queries (trace (snd (_get_events_cached ttl c (run_ops ttl ttl_my ops w))))
   = S (catalog_queries (trace (run_ops ttl ttl_my ops w)))).
Proof.
  intros Hpos Hdata Hops.
  pose proof (slot_same_run_ops ttl ttl_my ops w Hops) as Hslot.
  split; [exact Hslot |]. destruct Hslot as [Hts Hd].
  set (w' := run_ops ttl ttl_my ops w) in *.
  rewrite (get_events_cached_enabled ttl c w' (Qle_bool_positive _ Hpos)).
  unfold events_cache_fresh. rewrite Hd, Hdata, Hts. split.
  - intros Hnear. apply Qlt_bool_true_iff in Hnear. rewrite Hnear. reflexivity.
  - intros Hfar. apply Qlt_bool_false_iff in Hfar. rewrite Hfar.
    unfold events_refill. destruct (fault (next_outcome w')); simpl;
      (split; [reflexivity |]);
      rewrite !catalog_queries_app; unfold catalog_queries; simpl; lia.
Qed.

(** The slot is filled with the empty catalog at time 0; the events are
    created afterwards, alice registers, a second passes; the read still
    returns the empty catalog. *)
Lemma stale_catalog_on_demo_store :
  fst (_get_events_cached 2 1%nat
         (run_ops 2 0 [EnvStore demo_tables; ReqRegisterEvent 5 "alice"; EnvSleep 1]
                  (snd (_get_events_cached 2 0%nat (fresh (mkTables [] [] []))))))
  = Ok [].
Proof.
  assert (Hpos : (0 < 2)%Q) by reflexivity.
  destruct (catalog_slot_survives_everything_but_reads
              2 0 1%nat [EnvStore demo_tables; ReqRegisterEvent 5 "alice"; EnvSleep 1]
              (snd (_get_events_cached 2 0%nat (fresh (mkTables [] [] [])))) []
              Hpos eq_refl)
    as (_ & Hhit & _); [repeat constructor; simpl; tauto |].
  rewrite Hhit; [reflexivity | vm_compute; reflexivity].
Defined.


(** ** The per-user entries are private to their user *)

Lemma entry_same_refl u w : entry_same u w w.
Proof. reflexivity. Qed.

Lemma entry_same_trans u w1 w2 w3 :
  entry_same u w1 w2 -> entry_same u w2 w3 -> entry_same u w1 w3.
Proof. unfold entry_same. congruence. Qed.

Lemma same_caches_entry_same u w w' : same_caches w w' -> entry_same u w w'.
Proof. intros (_ & _ & Hm). unfold entry_same. rewrite Hm. reflexivity. Qed.

Lemma entry_same_run_ops ttl_events ttl_my u ops w :
  Forall (fun o => ~ touches u o) ops ->
  entry_same u w (run_ops ttl_events ttl_my ops w).
Proof.
  intros Hops.
  apply (guarded_run_ops (entry_same u) (entry_same_refl u) (entry_same_trans u)
           ttl_events ttl_my True True (fun u' => u' <> u) True).
  - intros c s _ w0. apply same_caches_entry_same, same_caches_execute.
  - intros _ c s w0. apply same_caches_entry_same, same_caches_execute.
  - intros c w0. apply same_caches_entry_same, same_caches_commit.
  - intros c w0. apply same_caches_entry_same, same_caches_close.
  - intros w0. apply same_caches_entry_same, same_caches_get_db.
  - intros _ ts data w0. reflexivity.
  - intros u' Hne ts data w0. unfold entry_same. simpl.
    apply lookup_insert_ne. exact Hne.
  - intros u' Hne w0. unfold entry_same. simpl. apply lookup_delete_ne. exact Hne.
  - intros t sc w0. reflexivity.
  - intros _ t w0. reflexivity.
  - eapply Forall_impl; [exact Hops |].
    intros o Ho. destruct o; simpl in *; auto.
Qed.

(** X5.  The entries of the per-user cache are private to their user and
    are served for TTL seconds from their timestamp, whatever happens to the
    store.  Through every sequence of operations none of which is a read or
    an invalidation for [u] (reads and registrations of other users,
    catalog reads, account registrations, logins, time passing, outside
    changes of the store), [u]'s entry is exactly what it was.  After them,
    a read for [u] at a clock reading whose float difference from the
    entry's timestamp is less than TTL returns the entry's rows without a
    store query (the world is unchanged), so a registration written for [u]
    by another process is not seen; at a float difference of TTL or more
    (the boundary included) the read is answered by the store. *)
Theorem entry_is_private_and_served_until_ttl
    (ttl_events ttl : Q) (c : conn) (u : string) (ops : list op) (w : World) :
  (0 < ttl)%Q ->
  Forall (fun o => ~ touches u o) ops ->
  _my_events_cache (run_ops ttl_events ttl ops w) !! u = _my_events_cache w !! u /\
  forall ts data,
    _my_events_cache w !! u = Some (ts, data) ->
    ((float_sub (clock (run_ops ttl_events ttl ops w)) ts < ttl)%Q ->
     _get_my_events_cached ttl c u (run_ops ttl_events ttl ops w)
     = (Ok data, run_ops ttl_events ttl ops w)) /\
    ((ttl <= float_sub (clock (run_ops ttl_events ttl ops w)) ts)%Q ->
     fst (_get_my_events_cached ttl c u (run_ops ttl_events ttl ops w))
     = match fault (next_outcome (run_ops ttl_events ttl ops w)) with
       | None => Ok (my_events_rows (view c (run_ops ttl_events ttl ops w)) u)
       | Some x => Raise x
       end).
Proof.
  intros Hpos Hops.
  pose proof (entry_same_run_ops ttl_events ttl u ops w Hops) as Hsame.
  unfold entry_same in Hsame. split; [exact Hsame |].
  intros ts data Hentry.
  set (w' := run_ops ttl_events ttl ops w) in *.
  rewrite (get_my_events_cached_enabled ttl c u w' (Qle_bool_positive _ Hpos)).
  rewrite Hsame, Hentry. split.
  - intros Hnear. apply Qlt_bool_true_iff in Hnear. rewrite Hnear. reflexivity.
  - intros Hfar. apply Qlt_bool_false_iff in Hfar. rewrite Hfar.
    unfold my_events_refill. destruct (fault (next_outcome w')); reflexivity.
Qed.

(** Alice's rows were cached at time 0; within the hour another process
    registers her for the hackathon and bob uses the service; her next read
    still lists the quiz only. *)
Lemma stale_entry_on_demo_store :
  fst (_get_my_events_cached 3600 1%nat "alice"
         (run_ops 2 3600
                  [EnvStore (apply_write demo_tables (WRegistration "alice" 5));
                   ReqMyEvents "bob"; ReqRegisterEvent 5 "bob"; EnvSleep 100]
                  (set_env 1 [] commit_fails_world)))
  = Ok [[VText "Quiz"; VInt 50]].
Proof.
  assert (Hpos : (0 < 3600)%Q) by reflexivity.
  destruct (entry_is_private_and_served_until_ttl
              2 3600 1%nat "alice"
              [EnvStore (apply_write demo_tables (WRegistration "alice" 5));
               ReqMyEvents "bob"; ReqRegisterEvent 5 "bob"; EnvSleep 100]
              (set_env 1 [] commit_fails_world) Hpos)
    as [_ Hserve]; [repeat constructor; simpl; try tauto; discriminate |].
  destruct (Hserve 0%Q [[VText "Quiz"; VInt 50]]) as [Hhit _];
    [vm_compute; reflexivity |].
  rewrite Hhit; [reflexivity | vm_compute; reflexivity].
Defined.

(** ** What the requests do to the store *)

Lemma view_no_pending c w : pending w = [] -> view c w = db w.
Proof. intros Hp. unfold view. rewrite Hp. reflexivity. Qed.

Lemma quiet_store_refl w : quiet_store w w.
Proof. intros Hp. split; [reflexivity | exact Hp]. Qed.

Lemma quiet_store_trans w1 w2 w3 :
  quiet_store w1 w2 -> quiet_store w2 w3 -> quiet_store w1 w3.
Proof.
  intros H12 H23 Hp. destruct (H12 Hp) as [Hd2 Hp2].
  destruct (H23 Hp2) as [Hd3 Hp3]. split; [congruence | exact Hp3].
Qed.

Lemma quiet_store_execute c s : is_write s = false -> respects quiet_store (execute c s).
Proof.
  intros Hs w Hp. rewrite (execute_read_only c s w Hs). simpl.
  split; [reflexivity | exact Hp].
Qed.

Lemma quiet_store_commit c : respects quiet_store (commit c).
Proof.
  intros w Hp. unfold commit. destruct (fault (next_outcome w)); simpl.
  - split; [reflexivity | exact Hp].
  - rewrite Hp. simpl. split; [| reflexivity].
    exact (view_no_pending c (elapse w) Hp).
Qed.

Lemma quiet_store_close c : respects quiet_store (close c).
Proof. intros w Hp. simpl. rewrite Hp. split; reflexivity. Qed.

Lemma quiet_store_get_db : respects quiet_store get_db.
Proof.
  intros w Hp. destruct (get_db_store w) as [Hd Hq]. split; [exact Hd | congruence].
Qed.

Lemma existsb_username_false u l :
  existsb (fun up : string * string => String.eqb (fst up) u) l = false ->
  ~ In u (map fst l).
Proof.
  induction l as [| [u' p'] l IH]; simpl; [tauto |].
  intros H. apply orb_false_iff in H as [Hne Hrest].
  intros [Heq | Hin]; [| exact (IH Hrest Hin)].
  subst u'. rewrite String.eqb_refl in Hne. discriminate.
Qed.

Lemma existsb_username_true u l :
  In u (map fst l) ->
  existsb (fun up : string * string => String.eqb (fst up) u) l = true.
Proof.
  intros Hin. apply in_map_iff in Hin as ([u' p'] & Heq & Hin). simpl in Heq. subst u'.
  apply existsb_exists. exists (u, p'). split; [exact Hin |]. apply String.eqb_refl.
Qed.

(** The transaction of [register] on a handle without pending writes: it
    commits exactly the new row, or nothing. *)
Lemma insert_user_and_commit_store c u p w :
  pending w = [] ->
  match insert_user_and_commit c u p w with
  | (Ok _, w2) =>
      ~ In u (usernames (db w)) /\
      db w2 = apply_write (db w) (WUser u p) /\ pending w2 = []
  | (Raise _, w2) =>
      db w2 = db w /\ Forall (fun cw => fst cw = c) (pending w2)
  end.
Proof.
  intros Hp. unfold insert_user_and_commit, bind, execute.
  destruct (fault (next_outcome w)); simpl.
  { rewrite Hp. split; [reflexivity | constructor]. }
  change (view c (elapse w)) with (view c w). rewrite (view_no_pending c w Hp).
  destruct (existsb _ (users (db w))) eqn:Hex; simpl.
  { rewrite Hp. split; [reflexivity | constructor]. }
  apply existsb_username_false in Hex.
  unfold commit.
  match goal with |- context [fault (next_outcome ?W)] =>
    destruct (fault (next_outcome W)) end; simpl.
  - rewrite Hp. split; [reflexivity |]. repeat constructor.
  - split; [exact Hex |]. split.
    + unfold view. simpl pending. rewrite writes_of_app, Hp, writes_of_own. reflexivity.
    + rewrite Hp. simpl. rewrite Nat.eqb_refl. reflexivity.
Qed.

(** The same for the transaction of [register_event]. *)
Lemma insert_and_commit_store c u e w :
  pending w = [] ->
  match insert_and_commit c u e w with
  | (Ok _, w2) => db w2 = apply_write (db w) (WRegistration u e) /\ pending w2 = []
  | (Raise _, w2) => db w2 = db w /\ Forall (fun cw => fst cw = c) (pending w2)
  end.
Proof.
  intros Hp. unfold insert_and_commit, bind, execute.
  destruct (fault (next_outcome w)); simpl.
  { rewrite Hp. split; [reflexivity | constructor]. }
  destruct (in_int64 e); simpl.
  2: { rewrite Hp. split; [reflexivity | constructor]. }
  unfold commit.
  match goal with |- context [fault (next_outcome ?W)] =>
    destruct (fault (next_outcome W)) end; simpl.
  - rewrite Hp. split; [reflexivity |]. repeat constructor.
  - split.
    + unfold view. simpl pending. rewrite writes_of_app, Hp, writes_of_own. reflexivity.
    + rewrite Hp. simpl. rewrite Nat.eqb_refl. reflexivity.
Qed.

Lemma filter_own_writes c (l : list (conn * write)) :
  Forall (fun cw => fst cw = c) l ->
  List.filter (fun cw => negb (Nat.eqb (fst cw) c)) l = [].
Proof.
  induction 1 as [| [c' wr] l Hc Hl IH]; simpl; [reflexivity |].
  simpl in Hc. subst c'. rewrite Nat.eqb_refl. exact IH.
Qed.

Lemma close_own_pending c w :
  Forall (fun cw : conn * write => fst cw = c) (pending w) ->
  pending (snd (close c w)) = [] /\ db (snd (close c w)) = db w.
Proof.
  intros Hall. simpl. split; [apply filter_own_writes; exact Hall | reflexivity].
Qed.

Lemma register_store u p w :
  pending w = [] ->
  pending (snd (register u p w)) = [] /\
  match fst (register u p w) with
  | Ok (RedirectResponse _ _) =>
      ~ In u (usernames (db w)) /\
      db (snd (register u p w)) = apply_write (db w) (WUser u p)
  | _ => db (snd (register u p w)) = db w
  end.
Proof.
  intros Hp. rewrite register_unfold.
  destruct (get_db_store w) as [Hd Hq].
  destruct (get_db w) as [[c | x] w1]; simpl in Hd, Hq.
  2: { simpl. split; congruence. }
  assert (Hp1 : pending w1 = []) by congruence.
  pose proof (insert_user_and_commit_store c u p w1 Hp1) as Htx.
  destruct (insert_user_and_commit c u p w1) as [[[] | x] w2].
  - destruct Htx as (Hnew & Hdb & Hp2). simpl. rewrite Hp2. simpl.
    split; [reflexivity |]. rewrite <- Hd. split; assumption.
  - destruct Htx as (Hdb & Hown).
    destruct (close_own_pending c w2 Hown) as [Hp3 Hd3].
    simpl in Hp3, Hd3 |- *. split; [exact Hp3 | congruence].
Qed.

Lemma register_event_store e u w :
  pending w = [] ->
  pending (snd (register_event e u w)) = [] /\
  match fst (register_event e u w) with
  | Ok _ => db (snd (register_event e u w)) = apply_write (db w) (WRegistration u e)
  | Raise _ => db (snd (register_event e u w)) = db w
  end.
Proof.
  intros Hp. destruct (Z.eqb e 404) eqn:He.
  { apply Z.eqb_eq in He. subst e.
    change (register_event 404 u w) with (@Raise response ZeroDivisionError, w).
    simpl. split; [exact Hp | reflexivity]. }
  rewrite (register_event_unfold _ _ _ He).
  destruct (get_db_store w) as [Hd Hq].
  destruct (get_db w) as [[c | x] w1]; simpl in Hd, Hq.
  2: { simpl. split; congruence. }
  assert (Hp1 : pending w1 = []) by congruence.
  pose proof (insert_and_commit_store c u e w1 Hp1) as Htx.
  destruct (insert_and_commit c u e w1) as [[[] | x] w2].
  - destruct Htx as (Hdb & Hp2). split.
    + simpl. rewrite Hp2. reflexivity.
    + simpl. rewrite Hdb, Hd. reflexivity.
  - destruct Htx as (Hdb & Hown).
    destruct (close_own_pending c w2 Hown) as [Hp3 Hd3].
    simpl in Hp3, Hd3 |- *. split; [exact Hp3 | congruence].
Qed.

(** ** When no sqlite call fails *)

Lemma calm_next w :
  calm w = true -> fault (next_outcome w) = None /\ calm (elapse w) = true.
Proof.
  unfold calm, next_outcome, succeeded. destruct w as [? ? ? ? ? ? ? ? ? sc ?].
  simpl. destruct sc as [| o sc]; simpl; [intros _; split; reflexivity |].
  destruct (fault o); simpl; [discriminate |]. intros H. split; [reflexivity | exact H].
Qed.

Lemma succeeds_ret {A} (a : A) : succeeds (ret a).
Proof. intros w Hc. exists a, w. split; [reflexivity | exact Hc]. Qed.

Lemma succeeds_gets {A} (f : World -> A) : succeeds (gets f).
Proof. intros w Hc. exists (f w), w. split; [reflexivity | exact Hc]. Qed.

Lemma succeeds_bind {A B} (m : M A) (k : A -> M B) :
  succeeds m -> (forall a, succeeds (k a)) -> succeeds (bind m k).
Proof.
  intros Hm Hk w Hc. destruct (Hm w Hc) as (a & w1 & Hr & Hc1).
  destruct (Hk a w1 Hc1) as (b & w2 & Hr2 & Hc2).
  exists b, w2. unfold bind. rewrite Hr. split; assumption.
Qed.

Lemma succeeds_if {A} (b : bool) (m1 m2 : M A) :
  succeeds m1 -> succeeds m2 -> succeeds (if b then m1 else m2).
Proof. destruct b; auto. Qed.

Lemma succeeds_connect : succeeds connect.
Proof.
  intros w Hc. destruct (calm_next w Hc) as [Hf Hc1].
  unfold connect. rewrite Hf. eexists _, _. split; [reflexivity | exact Hc1].
Qed.

Lemma succeeds_execute c s : is_write s = false -> succeeds (execute c s).
Proof.
  intros Hs w Hc. destruct (calm_next w Hc) as [Hf Hc1].
  unfold execute. rewrite Hf.
  destruct s; try discriminate Hs; simpl; eexists _, _;
    (split; [reflexivity | exact Hc1]).
Qed.

Lemma succeeds_get_db : succeeds get_db.
Proof.
  unfold get_db, _init_db_settings.
  apply succeeds_bind; [apply succeeds_connect | intros c].
  apply succeeds_bind; [apply succeeds_gets | intros b].
  apply succeeds_bind.
  - apply succeeds_if; [| apply succeeds_ret].
    apply succeeds_bind; [apply succeeds_gets | intros b'].
    apply succeeds_if; [| apply succeeds_ret].
    apply succeeds_bind.
    + repeat (apply succeeds_bind; [apply succeeds_execute; reflexivity | intros _]).
      apply succeeds_ret.
    + intros _ w Hc. eexists _, _. split; [reflexivity | exact Hc].
  - intros _. apply succeeds_bind; [apply succeeds_execute; reflexivity | intros _].
    apply succeeds_ret.
Qed.

Lemma calm_close c w : calm (snd (close c w)) = calm w.
Proof. reflexivity. Qed.

(** The transaction of [register] for a new username, and that of
    [register_event] for an id that fits a 64-bit integer, go through. *)
Lemma insert_user_and_commit_calm c u p w :
  calm w = true -> pending w = [] -> ~ In u (usernames (db w)) ->
  exists w2, insert_user_and_commit c u p w = (Ok tt, w2) /\ calm w2 = true.
Proof.
  intros Hc Hp Hnew. destruct (calm_next w Hc) as [Hf Hc1].
  destruct (calm_next _ Hc1) as [Hf2 Hc2].
  unfold insert_user_and_commit, bind, execute. rewrite Hf. simpl.
  change (view c (elapse w)) with (view c w). rewrite (view_no_pending c w Hp).
  destruct (existsb _ (users (db w))) eqn:Hex.
  { exfalso. apply Hnew. apply existsb_exists in Hex as ([u' p'] & Hin & Heq).
    simpl in Heq. apply String.eqb_eq in Heq. subst u'.
    apply in_map_iff. exists (u, p'). split; [reflexivity | exact Hin]. }
  unfold commit.
  match goal with |- context [fault (next_outcome ?W)] =>
    change (fault (next_outcome W)) with (fault (next_outcome (elapse w))) end.
  rewrite Hf2. eexists. split; [reflexivity | exact Hc2].
Qed.

Lemma insert_and_commit_calm c u e w :
  calm w = true -> in_int64 e = true ->
  exists w2, insert_and_commit c u e w = (Ok tt, w2) /\ calm w2 = true.
Proof.
  intros Hc He. destruct (calm_next w Hc) as [Hf Hc1].
  destruct (calm_next _ Hc1) as [Hf2 Hc2].
  unfold insert_and_commit, bind, execute. rewrite Hf. simpl. rewrite He.
  unfold commit.
  match goal with |- context [fault (next_outcome ?W)] =>
    change (fault (next_outcome W)) with (fault (next_outcome (elapse w))) end.
  rewrite Hf2. eexists. split; [reflexivity | exact Hc2].
Qed.

Lemma register_calm u p w :
  calm w = true -> pending w = [] -> ~ In u (usernames (db w)) ->
  fst (register u p w) = Ok (RedirectResponse "/login" 302) /\
  calm (snd (register u p w)) = true.
Proof.
  intros Hc Hp Hnew. rewrite register_unfold.
  destruct (succeeds_get_db w Hc) as (c & w1 & Hg & Hc1).
  destruct (get_db_store w) as [Hd Hq]. rewrite Hg in Hd, Hq |- *. simpl in Hd, Hq.
  destruct (insert_user_and_commit_calm c u p w1 Hc1) as (w2 & Htx & Hc2);
    [congruence | rewrite Hd; exact Hnew |].
  rewrite Htx. split; [reflexivity | exact Hc2].
Qed.

Lemma register_event_calm e u w :
  calm w = true -> e <> 404 -> in_int64 e = true ->
  fst (register_event e u w) = Ok (my_events_redirect u).
Proof.
  intros Hc He Hfit. apply Z.eqb_neq in He.
  rewrite (register_event_unfold _ _ _ He).
  destruct (succeeds_get_db w Hc) as (c & w1 & Hg & Hc1). rewrite Hg.
  destruct (insert_and_commit_calm c u e w1 Hc1 Hfit) as (w2 & Htx & _).
  rewrite Htx. reflexivity.
Qed.

(** [login] written out: what it answers depends on whether the query
    returned a row. *)
Lemma login_unfold u p w :
  login u p w =
  match get_db w with
  | (Raise x, w1) => (Raise x, w1)
  | (Ok c, w1) =>
      match execute c (SelectUser u p) w1 with
      | (Ok [], w2) => (Ok login_failed_page, snd (close c w2))
      | (Ok (_ :: _), w2) => (Ok (events_redirect u), snd (close c w2))
      | (Raise x, w2) => (Raise x, snd (close c w2))
      end
  end.
Proof.
  unfold login. unfold bind at 1.
  destruct (get_db w) as [[c | x] w1]; [| reflexivity].
  unfold bind, try_finally.
  destruct (execute c (SelectUser u p) w1) as [[[| r l] | x] w2]; reflexivity.
Qed.

Lemma select_user_rows u p (l : list (string * string)) :
  map user_row
    (List.filter (fun up => String.eqb (fst up) u && String.eqb (snd up) p) l) = []
  <-> existsb (fun up => String.eqb (fst up) u && String.eqb (snd up) p) l = false.
Proof.
  induction l as [| up l IH]; simpl; [tauto |].
  destruct (String.eqb (fst up) u && String.eqb (snd up) p); simpl;
    [split; discriminate | exact IH].
Qed.

Lemma login_calm u p w :
  calm w = true -> pending w = [] ->
  fst (login u p w)
  = Ok (if credentials_match (db w) u p then events_redirect u else login_failed_page).
Proof.
  intros Hc Hp. rewrite login_unfold.
  destruct (succeeds_get_db w Hc) as (c & w1 & Hg & Hc1).
  destruct (get_db_store w) as [Hd Hq]. rewrite Hg in Hd, Hq |- *. simpl in Hd, Hq.
  destruct (calm_next w1 Hc1) as [Hf _].
  unfold execute. rewrite Hf. simpl.
  change (view c (elapse w1)) with (view c w1).
  rewrite (view_no_pending c w1) by congruence. rewrite Hd.
  unfold credentials_match.
  pose proof (select_user_rows u p (users (db w))) as Hrows.
  destruct (map user_row _) as [| r l].
  - rewrite (proj1 Hrows eq_refl). reflexivity.
  - destruct (existsb _ (users (db w))); [reflexivity |].
    destruct Hrows as [_ Hrows]. specialize (Hrows eq_refl). discriminate.
Qed.

(** ** The storage handle provider *)

(** X1.  [get_db] never touches the tables, the open transactions or the
    caches, and never clears the tuning flag.  When it returns, the handle
    is a new one, it is open, the tuning flag is set, and the last thing
    done was to set the busy timeout on that handle, whether or not this
    call ran the one-time tuning.  In an environment in which no sqlite call
    fails it returns. *)
Theorem get_db_returns_new_open_handle_with_busy_timeout (w : World) :
  db (snd (get_db w)) = db w /\
  pending (snd (get_db w)) = pending w /\
  same_caches w (snd (get_db w)) /\
  (_db_initialized w = true -> _db_initialized (snd (get_db w)) = true) /\
  (forall c w',
     get_db w = (Ok c, w') ->
     c = next_conn w /\
     open_conns w' = c :: open_conns w /\
     _db_initialized w' = true /\
     exists pre, trace w' = trace w ++ pre ++ [EvExecute c PragmaBusyTimeout true]) /\
  (calm w = true -> exists w', get_db w = (Ok (next_conn w), w')).
Proof.
  destruct (get_db_store w) as [Hd Hp].
  split; [exact Hd |]. split; [exact Hp |].
  split; [apply same_caches_get_db |].
  split; [intros Hi; apply (tuned_get_db w Hi) |].
  split.
  - intros c w' Hg. destruct (get_db_ok w c w' Hg) as (Hc & Ho & Hi & _ & _ & Htr).
    repeat split; assumption.
  - intros Hc. destruct (succeeds_get_db w Hc) as (c & w' & Hg & _).
    destruct (get_db_ok w c w' Hg) as (-> & _). exists w'. exact Hg.
Qed.

Lemma get_db_on_demo_store :
  exists w', get_db (fresh demo_tables) = (Ok 0%nat, w') /\
             open_conns w' = [0%nat] /\ _db_initialized w' = true.
Proof.
  destruct (get_db_returns_new_open_handle_with_busy_timeout (fresh demo_tables))
    as (_ & _ & _ & _ & Hok & Hcalm).
  destruct (Hcalm eq_refl) as (w' & Hg). exists w'.
  destruct (Hok _ _ Hg) as (_ & Ho & Hi & _). repeat split; assumption.
Defined.

(** ** A cached read that raises *)

(** X6.  A cached read raises only when its store query fails, with the
    error of the query; it has then logged that one failed query and
    nothing else, and both caches are exactly as they were: a stale entry
    is kept, not dropped, and the next read queries again. *)
Theorem failed_cached_read_keeps_caches
    (ttl_events ttl_my : Q) (c : conn) (u : string) (w : World) (x : exn) :
  (fst (_get_events_cached ttl_events c w) = Raise x ->
   fault (next_outcome w) = Some x /\
   same_caches w (snd (_get_events_cached ttl_events c w)) /\
   trace (snd (_get_events_cached ttl_events c w))
   = trace w ++ [EvExecute c SelectEvents false]) /\
  (fst (_get_my_events_cached ttl_my c u w) = Raise x ->
   fault (next_outcome w) = Some x /\
   same_caches w (snd (_get_my_events_cached ttl_my c u w)) /\
   trace (snd (_get_my_events_cached ttl_my c u w))
   = trace w ++ [EvExecute c (SelectMyEvents u) false]).
Proof.
  split.
  - destruct (Qle_bool ttl_events 0) eqn:Httl.
    + apply Qle_bool_iff in Httl. rewrite (get_events_cached_disabled _ _ _ Httl).
      unfold bind. rewrite execute_select_events. unfold succeeded.
      destruct (fault (next_outcome w)); simpl; [| discriminate].
      intros H. injection H as ->. repeat split.
    + rewrite (get_events_cached_enabled _ _ _ Httl).
      destruct (events_cache_fresh ttl_events (clock w) w); [discriminate |].
      unfold events_refill. destruct (fault (next_outcome w)); simpl; [| discriminate].
      intros H. injection H as ->. repeat split.
  - destruct (Qle_bool ttl_my 0) eqn:Httl.
    + apply Qle_bool_iff in Httl. rewrite (get_my_events_cached_disabled _ _ _ _ Httl).
      unfold bind. rewrite execute_select_my_events. unfold succeeded.
      destruct (fault (next_outcome w)); simpl; [| discriminate].
      intros H. injection H as ->. repeat split.
    + rewrite (get_my_events_cached_enabled _ _ _ _ Httl).
      assert (Hre : fst (my_events_refill c u w) = Raise x ->
                    fault (next_outcome w) = Some x /\
                    same_caches w (snd (my_events_refill c u w)) /\
                    trace (snd (my_events_refill c u w))
                    = trace w ++ [EvExecute c (SelectMyEvents u) false]).
      { unfold my_events_refill.
        destruct (fault (next_outcome w)); simpl; [| discriminate].
        intros H. injection H as ->. repeat split. }
      destruct (_my_events_cache w !! u) as [[ts data] |]; [| exact Hre].
      destruct (Qlt_bool (float_sub (clock w) ts) ttl_my); [discriminate | exact Hre].
Qed.

(** Alice's entry is stale (TTL of half a second, written at time 0, read at
    time 1) and the query fails: the error reaches the caller and the entry
    is still there. *)
Lemma failed_refill_on_demo_store :
  _my_events_cache
    (snd (_get_my_events_cached (1 # 2) 0%nat "alice"
            (set_env 1 [failing_call] commit_fails_world))) !! "alice"
  = Some (0%Q, [[VText "Quiz"; VInt 50]]).
Proof.
  destruct (failed_cached_read_keeps_caches
              2 (1 # 2) 0%nat "alice" (set_env 1 [failing_call] commit_fails_world)
              OperationalError) as [_ H].
  destruct H as (_ & (_ & _ & Hm) & _); [vm_compute; reflexivity |].
  rewrite Hm. vm_compute. reflexivity.
Defined.

(** ** The two writers and [login] *)

Lemma usernames_add_user t u p :
  usernames (apply_write t (WUser u p)) = usernames t ++ [u].
Proof. unfold usernames. simpl. apply List.map_app. Qed.

Lemma NoDup_usernames_add t u p :
  ~ In u (usernames t) -> NoDup (usernames t) ->
  NoDup (usernames (apply_write t (WUser u p))).
Proof.
  intros Hnew Hnd. rewrite usernames_add_user. apply NoDup_app.
  split; [exact Hnd |]. split; [| apply NoDup_singleton].
  intros x Hx Hin. apply list_elem_of_In in Hx.
  apply list_elem_of_singleton in Hin. subst x. exact (Hnew Hx).
Qed.

(** Once [get_db] has returned, [register] answers with one of its two
    pages. *)
Lemma register_answers u p w c w1 :
  get_db w = (Ok c, w1) ->
  fst (register u p w) = Ok (RedirectResponse "/login" 302) \/
  fst (register u p w) = Ok (HTMLResponse username_exists_message).
Proof.
  intros Hg. rewrite register_unfold, Hg.
  destruct (insert_user_and_commit c u p w1) as [[[] | x] w2];
    [left | right]; reflexivity.
Qed.

(** X7.  [register], started with no transaction open, is all or nothing
    and never creates a second account for a username.  Either it answers
    with the redirect to [/login], the username was not in the users table
    and the table has gained exactly the row (username, password) at its
    end; or it answers otherwise (the "already exists" page, or an error of
    [get_db]) and the users table is what it was, also when the commit
    failed after the insert.  The other tables are unchanged, no
    transaction is left open, and usernames that were unique stay unique.
    For a new username, when no sqlite call fails, it is the redirect. *)
Theorem register_adds_one_new_user_or_nothing (u p : string) (w : World) :
  pending w = [] ->
  pending (snd (register u p w)) = [] /\
  events (db (snd (register u p w))) = events (db w) /\
  registrations (db (snd (register u p w))) = registrations (db w) /\
  (fst (register u p w) = Ok (RedirectResponse "/login" 302) /\
   ~ In u (usernames (db w)) /\
   users (db (snd (register u p w))) = users (db w) ++ [(u, p)]
   \/
   fst (register u p w) <> Ok (RedirectResponse "/login" 302) /\
   users (db (snd (register u p w))) = users (db w)) /\
  (NoDup (usernames (db w)) -> NoDup (usernames (db (snd (register u p w))))) /\
  (calm w = true -> ~ In u (usernames (db w)) ->
   fst (register u p w) = Ok (RedirectResponse "/login" 302)).
Proof.
  intros Hp. destruct (register_store u p w Hp) as [Hp' Hst].
  split; [exact Hp' |].
  assert (Hcases :
            fst (register u p w) = Ok (RedirectResponse "/login" 302) /\
            ~ In u (usernames (db w)) /\
            db (snd (register u p w)) = apply_write (db w) (WUser u p)
            \/
            fst (register u p w) <> Ok (RedirectResponse "/login" 302) /\
            db (snd (register u p w)) = db w).
  { destruct (get_db w) as [[c | x] w1] eqn:Hg.
    - destruct (register_answers u p w c w1 Hg) as [Hr | Hr]; rewrite Hr in Hst |- *.
      + left. split; [reflexivity | exact Hst].
      + right. split; [discriminate | exact Hst].
    - rewrite register_unfold, Hg in Hst |- *. simpl in Hst |- *.
      right. split; [discriminate | exact Hst]. }
  destruct Hcases as [(Hr & Hnew & Hdb) | (Hr & Hdb)]; rewrite Hdb; simpl.
  - split; [reflexivity |]. split; [reflexivity |].
    split; [left; repeat split; assumption |].
    split; [intros Hnd; apply (NoDup_usernames_add (db w) u p Hnew Hnd) |].
    intros _ _. exact Hr.
  - split; [reflexivity |]. split; [reflexivity |].
    split; [right; split; [exact Hr | reflexivity] |].
    split; [intros Hnd; exact Hnd |].
    intros Hc Hnew. exfalso. apply Hr. apply (register_calm u p w Hc Hp Hnew).
Qed.

Lemma register_on_demo_store :
  users (db (snd (register "bob" "x" (fresh demo_tables)))) = [("alice", "pw"); ("bob", "x")] /\
  users (db (snd (register "bob" "x" commit_fails_world))) = [("alice", "pw")] /\
  users (db (snd (register "alice" "x" (fresh demo_tables)))) = [("alice", "pw")].
Proof.
  destruct (register_adds_one_new_user_or_nothing "bob" "x" (fresh demo_tables) eq_refl)
    as (_ & _ & _ & H1 & _).
  destruct (register_adds_one_new_user_or_nothing "bob" "x" commit_fails_world eq_refl)
    as (_ & _ & _ & H2 & _).
  destruct (register_adds_one_new_user_or_nothing "alice" "x" (fresh demo_tables) eq_refl)
    as (_ & _ & _ & H3 & _).
  split; [| split].
  - destruct H1 as [(_ & _ & H) | (H & _)]; [exact H |].
    exfalso. apply H. vm_compute. reflexivity.
  - destruct H2 as [(H & _) | (_ & H)]; [| exact H]. vm_compute in H. discriminate H.
  - destruct H3 as [(H & _) | (_ & H)]; [| exact H]. vm_compute in H. discriminate H.
Defined.

(** X8.  [register_event], started with no transaction open, is all or
    nothing and checks nothing about the pair it is given.  When it returns,
    the registrations table has gained exactly the row (user, event_id) at
    its end, whether or not there is such a user or such an event and also
    when the same row was already there; when it raises, the table is what
    it was, also when the commit failed after the insert.  The users and
    events tables are unchanged and no transaction is left open.  When no
    sqlite call fails it returns for every user and every event id other
    than 404 that fits a 64-bit integer. *)
Theorem register_event_appends_the_row_or_nothing (e : Z) (u : string) (w : World) :
  pending w = [] ->
  pending (snd (register_event e u w)) = [] /\
  users (db (snd (register_event e u w))) = users (db w) /\
  events (db (snd (register_event e u w))) = events (db w) /\
  match fst (register_event e u w) with
  | Ok _ =>
      registrations (db (snd (register_event e u w)))
      = registrations (db w) ++ [(u, e)]
  | Raise _ =>
      registrations (db (snd (register_event e u w))) = registrations (db w)
  end /\
  (calm w = true -> e <> 404 -> in_int64 e = true ->
   fst (register_event e u w) = Ok (my_events_redirect u)).
Proof.
  intros Hp. destruct (register_event_store e u w Hp) as [Hp' Hst].
  split; [exact Hp' |].
  split; [destruct (fst (register_event e u w)); rewrite Hst; reflexivity |].
  split; [destruct (fst (register_event e u w)); rewrite Hst; reflexivity |].
  split; [destruct (fst (register_event e u w)); rewrite Hst; reflexivity |].
  intros Hc He Hfit. apply (register_event_calm e u w Hc He Hfit).
Qed.

(** Bob is not a user and 99 is not an event; registering twice leaves two
    equal rows. *)
Lemma register_event_twice_on_demo_store :
  registrations
    (db (snd (register_event 99 "bob" (snd (register_event 99 "bob" (fresh demo_tables))))))
  = [("alice", 7); ("bob", 99); ("bob", 99)].
Proof.
  destruct (register_event_appends_the_row_or_nothing 99 "bob" (fresh demo_tables) eq_refl)
    as (Hp1 & _ & _ & H1 & Hok1).
  destruct (register_event_appends_the_row_or_nothing
              99 "bob" (snd (register_event 99 "bob" (fresh demo_tables))) Hp1)
    as (_ & _ & _ & H2 & Hok2).
  rewrite Hok1 in H1 by (reflexivity || discriminate).
  rewrite Hok2 in H2 by (vm_compute; reflexivity || discriminate).
  rewrite H2, H1. reflexivity.
Defined.

Lemma same_caches_login u p : respects same_caches (login u p).
Proof.
  apply respects_login.
  - apply same_caches_refl.
  - apply same_caches_trans.
  - intros c s _. apply same_caches_execute.
  - apply same_caches_close.
  - apply same_caches_get_db.
Qed.

Lemma quiet_store_login u p : respects quiet_store (login u p).
Proof.
  apply guarded_login.
  - apply quiet_store_refl.
  - apply quiet_store_trans.
  - apply quiet_store_execute.
  - apply quiet_store_close.
  - apply quiet_store_get_db.
Qed.

(** X9.  [login] only reads: whatever it answers, the caches are what they
    were, and started with no transaction open it leaves the tables as they
    were and no transaction open.  When no sqlite call fails it answers
    with the redirect to the events page of the user exactly when the users
    table has a row with this username and this password, and with the
    login page otherwise. *)
Theorem login_only_reads_and_checks_credentials (u p : string) (w : World) :
  same_caches w (snd (login u p w)) /\
  (pending w = [] ->
   db (snd (login u p w)) = db w /\ pending (snd (login u p w)) = []) /\
  (calm w = true -> pending w = [] ->
   fst (login u p w)
   = Ok (if credentials_match (db w) u p then events_redirect u else login_failed_page)).
Proof.
  split; [apply same_caches_login |].
  split; [apply quiet_store_login | apply login_calm].
Qed.

Lemma login_on_demo_store :
  fst (login "alice" "pw" (fresh demo_tables))
  = Ok (RedirectResponse "/events?user=alice" 302) /\
  fst (login "alice" "wrong" (fresh demo_tables)) = Ok login_failed_page /\
  fst (login "bob" "pw" (fresh demo_tables)) = Ok login_failed_page.
Proof.
  destruct (login_only_reads_and_checks_credentials "alice" "pw" (fresh demo_tables))
    as (_ & _ & H1).
  destruct (login_only_reads_and_checks_credentials "alice" "wrong" (fresh demo_tables))
    as (_ & _ & H2).
  destruct (login_only_reads_and_checks_credentials "bob" "pw" (fresh demo_tables))
    as (_ & _ & H3).
  split; [exact (H1 eq_refl eq_refl) |].
  split; [exact (H2 eq_refl eq_refl) | exact (H3 eq_refl eq_refl)].
Defined.

Lemma credentials_match_added t u p p' :
  ~ In u (usernames t) ->
  credentials_match (apply_write t (WUser u p)) u p' = String.eqb p p'.
Proof.
  intros Hnew. unfold credentials_match. simpl. rewrite existsb_app. simpl.
  rewrite String.eqb_refl, orb_false_r. simpl.
  assert (Hold : existsb (fun up : string * string =>
                            String.eqb (fst up) u && String.eqb (snd up) p')
                         (users t) = false).
  { apply not_true_is_false. intros Hex.
    apply existsb_exists in Hex as ([u0 p0] & Hin & Hm). simpl in Hm.
    apply andb_true_iff in Hm as [Hu _]. apply String.eqb_eq in Hu. subst u0.
    apply Hnew. apply in_map_iff. exists (u, p0). split; [reflexivity | exact Hin]. }
  rewrite Hold. reflexivity.
Qed.

(** X10.  Registering and then logging in: for a username that is not yet
    in the users table, with no transaction open and no sqlite call failing,
    [register] redirects to the login page; after it, [login] with the same
    username and password redirects to the events page of that user,
    [login] with the same username and any other password answers with the
    login page, and a second [register] of the username, with any password,
    answers with the "already exists" page. *)
Theorem register_then_login
    (u p : string) (w : World) :
  calm w = true ->
  pending w = [] ->
  ~ In u (usernames (db w)) ->
  fst (register u p w) = Ok (RedirectResponse "/login" 302) /\
  fst (login u p (snd (register u p w))) = Ok (events_redirect u) /\
  (forall p', p' <> p ->
     fst (login u p' (snd (register u p w))) = Ok login_failed_page) /\
  (forall p',
     fst (register u p' (snd (register u p w)))
     = Ok (HTMLResponse username_exists_message)).
Proof.
  intros Hc Hp Hnew.
  destruct (register_calm u p w Hc Hp Hnew) as [Hr Hc1].
  destruct (register_store u p w Hp) as [Hp1 Hst]. rewrite Hr in Hst.
  destruct Hst as [_ Hdb].
  split; [exact Hr |]. split; [| split].
  - rewrite (login_calm u p _ Hc1 Hp1), Hdb, (credentials_match_added _ _ _ _ Hnew).
    rewrite String.eqb_refl. reflexivity.
  - intros p' Hne.
    rewrite (login_calm u p' _ Hc1 Hp1), Hdb, (credentials_match_added _ _ _ _ Hnew).
    destruct (String.eqb p p') eqn:E; [| reflexivity].
    apply String.eqb_eq in E. congruence.
  - intros p'. set (w1 := snd (register u p w)) in *.
    destruct (succeeds_get_db w1 Hc1) as (c & w2 & Hg & _).
    destruct (register_answers u p' w1 c w2 Hg) as [Hred | Hmsg]; [| exact Hmsg].
    exfalso. destruct (register_store u p' w1 Hp1) as [_ Hst]. rewrite Hred in Hst.
    destruct Hst as [Habsent _]. apply Habsent.
    rewrite Hdb, usernames_add_user. apply in_or_app. right. left. reflexivity.
Qed.

Lemma register_then_login_on_demo_store :
  fst (login "bob" "x" (snd (register "bob" "x" (fresh demo_tables))))
  = Ok (RedirectResponse "/events?user=bob" 302) /\
  fst (login "bob" "y" (snd (register "bob" "x" (fresh demo_tables))))
  = Ok login_failed_page.
Proof.
  assert (Hnew : ~ In "bob" (usernames (db (fresh demo_tables)))).
  { simpl. intros [H | []]. discriminate H. }
  destruct (register_then_login "bob" "x" (fresh demo_tables) eq_refl eq_refl Hnew)
    as (_ & H1 & H2 & _).
  split; [exact H1 |]. apply H2. discriminate.
Defined.

(** ** Sequences of requests *)

Lemma quiet_request_step w w' : quiet_store w w' -> pending w = [] -> request_step w w'.
Proof. intros Hq Hp. destruct (Hq Hp) as [Hd Hp']. split; [exact Hp' | left; exact Hd]. Qed.

Ltac quiet_store_parts :=
  first [ apply quiet_store_refl | apply quiet_store_trans | apply quiet_store_execute
        | apply quiet_store_commit | apply quiet_store_close | apply quiet_store_get_db
        | exact I
        | intros; intros w0 Hp0; split; [reflexivity | exact Hp0] ].

Lemma quiet_store_startup : respects quiet_store startup.
Proof. apply guarded_startup; quiet_store_parts. Qed.

Lemma quiet_store_events_page ttl u : respects quiet_store (events_page ttl u).
Proof. apply guarded_events_page with (gc := True); quiet_store_parts. Qed.

Lemma quiet_store_my_events ttl u : respects quiet_store (my_events ttl u).
Proof. apply guarded_my_events with (gu := fun _ => True); quiet_store_parts. Qed.

Lemma request_step_run_op ttl_events ttl_my o w :
  is_request o = true -> pending w = [] ->
  request_step w (run_op ttl_events ttl_my o w).
Proof.
  intros Hreq Hp. destruct o; try discriminate Hreq; simpl; unfold exec.
  - apply quiet_request_step; [apply quiet_store_startup | exact Hp].
  - destruct (register_store username password w Hp) as [Hp' Hst].
    split; [exact Hp' |].
    destruct (fst (register username password w)) as [[body | url code | n r us] | x];
      try (left; exact Hst).
    right. left. exists username, password. exact Hst.
  - apply quiet_request_step; [apply quiet_store_login | exact Hp].
  - apply quiet_request_step; [apply quiet_store_events_page | exact Hp].
  - destruct (register_event_store event_id user w Hp) as [Hp' Hst].
    split; [exact Hp' |].
    destruct (fst (register_event event_id user w)); [| left; exact Hst].
    right. right. exists user, event_id. exact Hst.
  - apply quiet_request_step; [apply quiet_store_my_events | exact Hp].
Qed.

Lemma grown_refl t : grown t t.
Proof.
  split; [reflexivity |].
  split; exists []; symmetry; apply app_nil_r.
Qed.

Lemma grown_trans t1 t2 t3 : grown t1 t2 -> grown t2 t3 -> grown t1 t3.
Proof.
  intros (He1 & (us1 & Hu1) & (rs1 & Hr1)) (He2 & (us2 & Hu2) & (rs2 & Hr2)).
  split; [congruence |]. split.
  - exists (us1 ++ us2). rewrite Hu2, Hu1, app_assoc. reflexivity.
  - exists (rs1 ++ rs2). rewrite Hr2, Hr1, app_assoc. reflexivity.
Qed.

Lemma request_step_grown w w' :
  request_step w w' ->
  grown (db w) (db w') /\
  (NoDup (usernames (db w)) -> NoDup (usernames (db w'))).
Proof.
  intros (_ & [Hd | [(u & p & Hnew & Hd) | (u & e & Hd)]]); rewrite Hd.
  - split; [apply grown_refl | auto].
  - split; [| apply NoDup_usernames_add; exact Hnew].
    split; [reflexivity |]. split; [exists [(u, p)]; reflexivity |].
    exists []. simpl. symmetry. apply app_nil_r.
  - split; [| auto].
    split; [reflexivity |]. split; [| exists [(u, e)]; reflexivity].
    exists []. simpl. symmetry. apply app_nil_r.
Qed.

(** X11.  Through every sequence of requests, started with no transaction
    open: no transaction is open at the end; the users and registrations
    tables have only grown, by rows appended at their end (no request
    deletes or changes a row); the events table is what it was; and
    usernames that were unique are still unique. *)
Theorem requests_only_append
    (ttl_events ttl_my : Q) (ops : list op) (w : World) :
  Forall (fun o => is_request o = true) ops ->
  pending w = [] ->
  pending (run_ops ttl_events ttl_my ops w) = [] /\
  grown (db w) (db (run_ops ttl_events ttl_my ops w)) /\
  (NoDup (usernames (db w)) ->
   NoDup (usernames (db (run_ops ttl_events ttl_my ops w)))).
Proof.
  unfold run_ops. revert w.
  induction ops as [| o ops IH]; intros w Hall Hp; simpl.
  - split; [exact Hp |]. split; [apply grown_refl | auto].
  - inversion Hall as [| ? ? Ho Hops]; subst.
    pose proof (request_step_run_op ttl_events ttl_my o w Ho Hp) as Hstep.
    destruct (request_step_grown _ _ Hstep) as [Hg1 Hn1].
    destruct Hstep as [Hp1 _].
    destruct (IH _ Hops Hp1) as (Hp2 & Hg2 & Hn2).
    split; [exact Hp2 |]. split; [eapply grown_trans; eassumption | auto].
Qed.

Lemma requests_on_demo_store :
  pending (run_ops 2 2 [ReqRegister "bob" "x"; ReqRegister "bob" "y"; ReqLogin "bob" "x";
                        ReqRegisterEvent 5 "bob"; ReqRegisterEvent 404 "bob";
                        ReqMyEvents "bob"; ReqEvents "bob"; ReqStartup]
                   (fresh demo_tables)) = [] /\
  NoDup (usernames
           (db (run_ops 2 2 [ReqRegister "bob" "x"; ReqRegister "bob" "y";
                             ReqLogin "bob" "x"; ReqRegisterEvent 5 "bob";
                             ReqRegisterEvent 404 "bob"; ReqMyEvents "bob";
                             ReqEvents "bob"; ReqStartup]
                        (fresh demo_tables)))).
Proof.
  destruct (requests_only_append
              2 2 [ReqRegister "bob" "x"; ReqRegister "bob" "y"; ReqLogin "bob" "x";
                   ReqRegisterEvent 5 "bob"; ReqRegisterEvent 404 "bob";
                   ReqMyEvents "bob"; ReqEvents "bob"; ReqStartup]
              (fresh demo_tables))
    as (Hp & _ & Hn); [repeat constructor | reflexivity |].
  split; [exact Hp |]. apply Hn. simpl. apply NoDup_singleton.
Defined.

(** ** From the registration request to the page of registrations *)

Lemma my_events_unfold ttl u w :
  my_events ttl u w =
  match get_db w with
  | (Raise x, w1) => (Raise x, w1)
  | (Ok c, w1) =>
      match _get_my_events_cached ttl c u w1 with
      | (Ok rows, w2) => (Ok (TemplateResponse "my_events.html" rows u), snd (close c w2))
      | (Raise x, w2) => (Raise x, snd (close c w2))
      end
  end.
Proof.
  unfold my_events. unfold bind at 1.
  destruct (get_db w) as [[c | x] w1]; [| reflexivity].
  unfold bind, try_finally.
  destruct (_get_my_events_cached ttl c u w1) as [[rows | x] w2]; reflexivity.
Qed.

(** Without an entry for the user, and with no sqlite call failing, the
    page lists the rows of the store. *)
Lemma my_events_miss ttl u w :
  calm w = true -> pending w = [] -> _my_events_cache w !! u = None ->
  fst (my_events ttl u w)
  = Ok (TemplateResponse "my_events.html" (my_events_rows (db w) u) u).
Proof.
  intros Hc Hp Hnone. rewrite my_events_unfold.
  destruct (succeeds_get_db w Hc) as (c & w1 & Hg & Hc1).
  destruct (get_db_store w) as [Hd Hq].
  pose proof (same_caches_get_db w) as (_ & _ & Hm).
  rewrite Hg in Hd, Hq, Hm |- *. simpl in Hd, Hq, Hm.
  destruct (calm_next w1 Hc1) as [Hf _].
  assert (Hview : view c w1 = db w)
    by (rewrite (view_no_pending c w1) by congruence; exact Hd).
  destruct (Qle_bool ttl 0) eqn:Httl.
  - apply Qle_bool_iff in Httl. rewrite (get_my_events_cached_disabled _ _ _ _ Httl).
    unfold bind. rewrite execute_select_my_events, Hf, Hview. reflexivity.
  - rewrite (get_my_events_cached_enabled _ _ _ _ Httl), Hm, Hnone.
    unfold my_events_refill. rewrite Hf, Hview. reflexivity.
Qed.

(** X12.  The registration request followed by the page of registrations:
    started with no transaction open, once [register_event] for a user has
    returned, and whatever time has passed since, the next [my_events] of
    that user, when no sqlite call fails, answers with the page listing the
    rows of the join over the tables with the new registration added, for
    every TTL: with caching disabled, and with caching enabled whatever the
    cache held before the registration.  The page lists the name and fee of
    every event that has the registered id. *)
Theorem page_after_register_event_lists_registration
    (ttl_my : Q) (e : Z) (u : string) (w : World) (r : response) (w1 : World)
    (t : Q) (sc : list outcome) :
  pending w = [] ->
  register_event e u w = (Ok r, w1) ->
  forallb succeeded sc = true ->
  fst (my_events ttl_my u (set_env t sc w1))
  = Ok (TemplateResponse "my_events.html"
          (my_events_rows (apply_write (db w) (WRegistration u e)) u) u) /\
  forall name fee,
    In (e, name, fee) (events (db w)) ->
    In [VText name; VInt fee]
       (my_events_rows (apply_write (db w) (WRegistration u e)) u).
Proof.
  intros Hp Hreg Hsc.
  destruct (register_event_store e u w Hp) as [Hp1 Hst].
  destruct (register_event_ok e u w r w1 Hreg) as [_ Hnone].
  rewrite Hreg in Hp1, Hst. simpl in Hp1, Hst. split.
  - rewrite (my_events_miss ttl_my u (set_env t sc w1) Hsc Hp1 Hnone).
    simpl db. rewrite Hst. reflexivity.
  - intros name fee Hev. apply (my_events_rows_In _ u e).
    + simpl. apply in_or_app. right. left. reflexivity.
    + exact Hev.
Qed.

(** Alice's rows are cached and fresh for an hour when she registers for
    the hackathon; her page lists the hackathon a second later. *)
Lemma page_after_register_event_on_demo_store :
  fst (my_events 3600 "alice"
         (set_env 2 [] (snd (register_event 5 "alice" (set_env 1 [] commit_fails_world)))))
  = Ok (TemplateResponse "my_events.html"
          [[VText "Quiz"; VInt 50]; [VText "Hackathon"; VInt 100]] "alice").
Proof.
  destruct (page_after_register_event_lists_registration
              3600 5 "alice" (set_env 1 [] commit_fails_world)
              (RedirectResponse "/my-events?user=alice" 302)
              (snd (register_event 5 "alice" (set_env 1 [] commit_fails_world)))
              2 [])
    as [Hpage _]; [reflexivity | vm_compute; reflexivity | reflexivity |].
  rewrite Hpage. vm_compute. reflexivity.
Defined.
